(** * mbict/session: the in-memory session store (store.go)

    A shallow embedding of [store.go].  The program is a Go package with one
    manager ([memoryStore]) that owns a table of [dataItem]s keyed by session
    id, a background goroutine ([gc]) driven by a [time.Ticker], and
    per-session handles ([store]) that carry a Go map of values.

    Go maps are reference values: the handle returned by [Update] or
    [Refresh], and the item written by [save], hold the *same* map as the
    caller.  The embedding therefore keeps all value maps in a heap indexed by
    locations and lets items and handles hold locations.

    A [*dataItem] is only ever reachable through the table, under one key
    (it is created by [newDataItem] and stored at once; [Update] stores it
    back under the key it was loaded from), so items are kept by value inside
    the table and a write through the pointer is an update of the table
    entry. *)

From stdpp Require Import gmap strings list fin_maps.
From Stdlib Require Import ZArith Lia.

Open Scope Z_scope.

(** ** Time *)

(** [time.Time] as an instant counted in nanoseconds, [time.Duration] as the
    signed 64-bit nanosecond count it is in Go. *)
Definition Time := Z.
Definition Duration := Z.

Definition wrap64 (z : Z) : Z := (z + 2 ^ 63) mod 2 ^ 64 - 2 ^ 63.

Definition int64_min : Z := - 2 ^ 63.
Definition int64_max : Z := 2 ^ 63 - 1.

Definition time_Second : Duration := 1000000000.

(** [time.Duration(expired) * time.Second]: an int64 product, which wraps. *)
Definition seconds (expired : Z) : Duration := wrap64 (expired * time_Second).

Definition Time_Add (t : Time) (d : Duration) : Time := t + d.
Definition Time_Before (t u : Time) : bool := t <? u.
Definition Time_After (t u : Time) : bool := u <? t.

(** ** Dynamically typed values *)

(** [uuid.UUID] is [[16]byte]. *)
Definition UUID := list Byte.byte.
Definition uuid_Nil : UUID := replicate 16 Byte.x00.

(** The dynamic type of an [interface{}] that the getters tell apart. *)
Inductive Value :=
| VNil
| VString (s : string)
| VInt (i : Z)
| VBool (b : bool)
| VUUID (u : UUID)
| VBytes (bs : list Byte.byte)
| VOther (tag : nat).

Definition loc := positive.
Definition context_Context := nat.
Definition error := option string.

(** ** Records *)

Record dataItem := mkDataItem {
  item_sid : string;
  item_expiredAt : Time;
  item_values : option loc  (* a Go map; [None] is the nil map *)
}.

(** The channel [ticker.C] (capacity one) and the running flag of the runtime
    timer behind a [time.Ticker]. *)
Record Ticker := mkTicker {
  tk_period : Duration;
  tk_pending : bool;   (* a tick is buffered in C *)
  tk_closed : bool;    (* C has been closed *)
  tk_active : bool     (* the runtime timer still fires *)
}.

Record memoryStore := mkMemoryStore {
  ticker : Ticker;
  data : gmap string dataItem
}.

(** The goroutine started by [go mstore.gc()]. *)
Inductive Routine := Receiving | Returned.

Record World := mkWorld {
  clock : Time;                            (* what [now()] returns *)
  heap : gmap loc (gmap string Value);     (* every Go map of values *)
  mstore : memoryStore;
  gc_routine : Routine
}.

(** A handle [*store].  The [mstore] pointer is the one manager of the
    world; the embedded [RWMutex] guards single map accesses, which are
    atomic steps here. *)
Record store := mkStore {
  st_ctx : context_Context;
  st_sid : string;
  st_expired : Z;
  st_values : loc
}.

Definition set_clock (t : Time) (w : World) : World :=
  mkWorld t (heap w) (mstore w) (gc_routine w).
Definition set_heap (h : gmap loc (gmap string Value)) (w : World) : World :=
  mkWorld (clock w) h (mstore w) (gc_routine w).
Definition set_data (d : gmap string dataItem) (w : World) : World :=
  mkWorld (clock w) (heap w) (mkMemoryStore (ticker (mstore w)) d) (gc_routine w).
Definition set_ticker (tk : Ticker) (w : World) : World :=
  mkWorld (clock w) (heap w) (mkMemoryStore tk (data (mstore w))) (gc_routine w).
Definition set_gc_routine (r : Routine) (w : World) : World :=
  mkWorld (clock w) (heap w) (mstore w) r.

(** ** A state monad over the world *)

Definition M (A : Type) : Type := World → A * World.

Definition ret {A} (a : A) : M A := λ w, (a, w).
Definition bind {A B} (c : M A) (k : A → M B) : M B :=
  λ w, let '(a, w') := c w in k a w'.

Notation "'let*' x ':=' c 'in' k" := (bind c (λ x, k))
  (at level 10, x binder, c at level 100, k at level 200).
Notation "c ';;;' k" := (bind c (λ _, k))
  (at level 100, k at level 200, right associativity).

Definition exec {A} (c : M A) (w : World) : World := snd (c w).
Definition eval {A} (c : M A) (w : World) : A := fst (c w).

(** *** Primitives: the clock, the skip map, Go maps *)

Definition now : M Time := λ w, (clock w, w).

Definition data_Load (sid : string) : M (option dataItem) :=
  λ w, (data (mstore w) !! sid, w).
Definition data_Store (sid : string) (item : dataItem) : M unit :=
  λ w, (tt, set_data (<[sid := item]> (data (mstore w))) w).
Definition data_Delete (sid : string) : M unit :=
  λ w, (tt, set_data (delete sid (data (mstore w))) w).

(** A field write through the [*dataItem] held by the table. *)
Definition item_write (sid : string) (f : dataItem → dataItem) : M unit :=
  λ w, (tt, set_data (alter f sid (data (mstore w))) w).

Definition with_values (values : option loc) (it : dataItem) : dataItem :=
  mkDataItem (item_sid it) (item_expiredAt it) values.
Definition with_expiredAt (t : Time) (it : dataItem) : dataItem :=
  mkDataItem (item_sid it) t (item_values it).

(** [make(map[string]interface{})] *)
Definition map_make : M loc :=
  λ w, let l := fresh (dom (heap w)) in (l, set_heap (<[l := ∅]> (heap w)) w).
(** [v, ok := m[key]] *)
Definition map_index (m : loc) (key : string) : M (option Value) :=
  λ w, (heap w !! m ≫= (.!! key), w).
(** [m[key] = value] *)
Definition map_assign (m : loc) (key : string) (value : Value) : M unit :=
  λ w, (tt, set_heap (alter (<[key := value]>) m (heap w)) w).
(** [delete(m, key)] *)
Definition map_delete (m : loc) (key : string) : M unit :=
  λ w, (tt, set_heap (alter (delete key) m (heap w)) w).

(** [s.data.Range(f)]: [f] is called on the entries found by the scan until
    it answers [false]. *)
Fixpoint range_over (f : string → dataItem → M bool)
    (entries : list (string * dataItem)) : M unit :=
  match entries with
  | [] => ret tt
  | (key, value) :: rest =>
      let* continue := f key value in
      if continue then range_over f rest else ret tt
  end.

Definition data_Range (f : string → dataItem → M bool) : M unit :=
  λ w, range_over f (map_to_list (data (mstore w))) w.

(** ** The manager *)

(** [time.NewTicker(d)]: an open, empty channel and a running timer. *)
Definition new_ticker (d : Duration) : Ticker := mkTicker d false false true.

(** The world right after [NewMemoryStore()], called at time [t0]: an empty
    table, a one-second ticker, and the [gc] goroutine in its loop. *)
Definition NewMemoryStore (t0 : Time) : World :=
  mkWorld t0 ∅ (mkMemoryStore (new_ticker time_Second) ∅) Receiving.

Definition newDataItem (sid : string) (values : option loc) (expired : Z)
  : M dataItem :=
  let* t := now in
  ret (mkDataItem sid (Time_Add t (seconds expired)) values).

(** The function [gc] hands to [Range]; every value of the table is a
    [*dataItem], so the type assertion succeeds. *)
Definition gc_visit (key : string) (item : dataItem) : M bool :=
  let* t := now in
  (if Time_Before (item_expiredAt item) t then data_Delete key else ret tt) ;;;
  ret true.

Definition memoryStore_gc_pass : M unit := data_Range gc_visit.

Definition memoryStore_save (sid : string) (values : option loc) (expired : Z)
  : M unit :=
  let* dt := data_Load sid in
  match dt with
  | Some _ => item_write sid (with_values values)
  | None =>
      let* item := newDataItem sid values expired in
      data_Store sid item
  end.

Definition memoryStore_Check (ctx : context_Context) (sid : string)
  : M (bool * error) :=
  let* dt := data_Load sid in
  match dt with
  | None => ret (false, None)
  | Some item =>
      let* t := now in
      if Time_After (item_expiredAt item) t then ret (true, None)
      else ret (false, None)
  end.

Definition newStore (ctx : context_Context) (sid : string) (expired : Z)
    (values : option loc) : M store :=
  let* values :=
    match values with
    | None => map_make
    | Some m => ret m
    end in
  ret (mkStore ctx sid expired values).

Definition memoryStore_Create (ctx : context_Context) (sid : string)
    (expired : Z) : M (store * error) :=
  let* s := newStore ctx sid expired None in
  ret (s, None).

Definition memoryStore_Update (ctx : context_Context) (sid : string)
    (expired : Z) : M (store * error) :=
  let* dt := data_Load sid in
  match dt with
  | None =>
      let* s := newStore ctx sid expired None in
      ret (s, None)
  | Some item =>
      let* t := now in
      let item := with_expiredAt (Time_Add t (seconds expired)) item in
      item_write sid (with_expiredAt (Time_Add t (seconds expired))) ;;;
      data_Store sid item ;;;
      let* s := newStore ctx sid expired (item_values item) in
      ret (s, None)
  end.

Definition memoryStore_delete (sid : string) : M unit := data_Delete sid.

Definition memoryStore_Delete (ctx : context_Context) (sid : string) : M error :=
  memoryStore_delete sid ;;; ret None.

Definition memoryStore_Refresh (ctx : context_Context) (oldsid sid : string)
    (expired : Z) : M (store * error) :=
  let* dt := data_Load oldsid in
  match dt with
  | None =>
      let* s := newStore ctx sid expired None in
      ret (s, None)
  | Some item =>
      let* newItem := newDataItem sid (item_values item) expired in
      data_Store sid newItem ;;;
      memoryStore_delete oldsid ;;;
      let* s := newStore ctx sid expired (item_values newItem) in
      ret (s, None)
  end.

(** [ticker.Stop()]: the timer stops firing; the channel is left as it is. *)
Definition Ticker_Stop (tk : Ticker) : Ticker :=
  mkTicker (tk_period tk) (tk_pending tk) (tk_closed tk) false.

Definition memoryStore_Close : M error :=
  λ w, (None, set_ticker (Ticker_Stop (ticker (mstore w))) w).

(** ** The handle *)

Definition store_Context (s : store) : context_Context := st_ctx s.
Definition store_SessionID (s : store) : string := st_sid s.

Definition store_Set (s : store) (key : string) (value : Value) : M unit :=
  map_assign (st_values s) key value.

Definition store_Get (s : store) (key : string) : M (Value * bool) :=
  let* r := map_index (st_values s) key in
  match r with
  | Some val => ret (val, true)
  | None => ret (VNil, false)
  end.

Definition store_GetString (s : store) (key : string) : M (string * bool) :=
  let* '(v, ok) := store_Get s key in
  if ok then
    match v with
    | VString str => ret (str, true)
    | _ => ret (EmptyString, false)
    end
  else ret (EmptyString, false).

Definition store_GetBool (s : store) (key : string) : M (bool * bool) :=
  let* '(v, ok) := store_Get s key in
  if ok then
    match v with
    | VBool b => ret (b, true)
    | _ => ret (false, false)
    end
  else ret (false, false).

Definition store_GetInt (s : store) (key : string) : M (Z * bool) :=
  let* '(v, ok) := store_Get s key in
  if ok then
    match v with
    | VInt i => ret (i, true)
    | _ => ret (0, false)
    end
  else ret (0, false).

Section GetUUID.
(** [uuid.Parse] and [uuid.FromBytes] of github.com/google/uuid are not
    part of this repository; they are parameters, [None] standing for a
    non-nil error. *)
Variable uuid_Parse : string → option UUID.
Variable uuid_FromBytes : list Byte.byte → option UUID.

Definition store_GetUUID (s : store) (key : string) : M (UUID * bool) :=
  let* '(v, ok) := store_Get s key in
  if ok then
    match v with
    | VUUID t => ret (t, true)
    | VString t =>
        match uuid_Parse t with
        | Some id => ret (id, true)
        | None => ret (uuid_Nil, false)
        end
    | VBytes t =>
        match uuid_FromBytes t with
        | Some id => ret (id, true)
        | None => ret (uuid_Nil, false)
        end
    | _ => ret (uuid_Nil, false)
    end
  else ret (uuid_Nil, false).
End GetUUID.

Definition store_Delete (s : store) (key : string) : M Value :=
  let* r := map_index (st_values s) key in
  match r with
  | Some v => map_delete (st_values s) key ;;; ret v
  | None => ret VNil
  end.

Definition store_Save (s : store) : M error :=
  memoryStore_save (st_sid s) (Some (st_values s)) (st_expired s) ;;;
  ret None.

(** [Flush] replaces the handle's map, so the handle itself changes. *)
Definition store_Flush (s : store) : M (store * error) :=
  let* m := map_make in
  let s' := mkStore (st_ctx s) (st_sid s) (st_expired s) m in
  let* e := store_Save s' in
  ret (s', e).

(** ** The ticker and the [gc] goroutine *)

(** The runtime timer fires: a non-blocking send on [C], whose buffer holds
    one tick; a tick that finds the buffer full is dropped.  Nothing is sent
    once the ticker is stopped. *)
Definition Ticker_fire (tk : Ticker) : Ticker :=
  if tk_active tk
  then mkTicker (tk_period tk) true (tk_closed tk) (tk_active tk)
  else tk.

Definition Ticker_receive (tk : Ticker) : Ticker :=
  mkTicker (tk_period tk) false (tk_closed tk) (tk_active tk).

(** One turn of [for range s.ticker.C { ... }]: with a tick in the buffer the
    body runs; on a closed and drained channel the loop ends and [gc]
    returns; otherwise the goroutine stays blocked ([None]). *)
Definition memoryStore_gc (w : World) : option World :=
  match gc_routine w with
  | Returned => None
  | Receiving =>
      if tk_pending (ticker (mstore w)) then
        Some (exec memoryStore_gc_pass
                (set_ticker (Ticker_receive (ticker (mstore w))) w))
      else if tk_closed (ticker (mstore w)) then
        Some (set_gc_routine Returned w)
      else None
  end.

(** ** Calls of the public interface and the steps of the whole system *)

Inductive call :=
| call_Check (ctx : context_Context) (sid : string)
| call_Create (ctx : context_Context) (sid : string) (expired : Z)
| call_Update (ctx : context_Context) (sid : string) (expired : Z)
| call_Delete (ctx : context_Context) (sid : string)
| call_Refresh (ctx : context_Context) (oldsid sid : string) (expired : Z)
| call_Close
| call_Set (s : store) (key : string) (value : Value)
| call_Get (s : store) (key : string)
| call_StoreDelete (s : store) (key : string)
| call_Save (s : store)
| call_Flush (s : store).

Definition run (c : call) : World → World :=
  match c with
  | call_Check ctx sid => exec (memoryStore_Check ctx sid)
  | call_Create ctx sid expired => exec (memoryStore_Create ctx sid expired)
  | call_Update ctx sid expired => exec (memoryStore_Update ctx sid expired)
  | call_Delete ctx sid => exec (memoryStore_Delete ctx sid)
  | call_Refresh ctx oldsid sid expired =>
      exec (memoryStore_Refresh ctx oldsid sid expired)
  | call_Close => exec memoryStore_Close
  | call_Set s key value => exec (store_Set s key value)
  | call_Get s key => exec (store_Get s key)
  | call_StoreDelete s key => exec (store_Delete s key)
  | call_Save s => exec (store_Save s)
  | call_Flush s => exec (store_Flush s)
  end.

Inductive step : World → World → Prop :=
| step_time w d :
    0 ≤ d → step w (set_clock (clock w + d) w)
| step_tick w :
    step w (set_ticker (Ticker_fire (ticker (mstore w))) w)
| step_gc w w' :
    memoryStore_gc w = Some w' → step w w'
| step_call w c :
    step w (run c w).

Inductive steps : World → World → Prop :=
| steps_refl w : steps w w
| steps_step w1 w2 w3 : steps w1 w2 → step w2 w3 → steps w1 w3.

(** ** Observations *)

(** The contents of a Go map value; the nil map reads as the empty map. *)
Definition map_contents (w : World) (m : option loc) : gmap string Value :=
  match m with
  | None => ∅
  | Some l => default ∅ (heap w !! l)
  end.

(** The values of the table entry of [sid], as a [Load] followed by reading
    the map shows them. *)
Definition entry_values (w : World) (sid : string)
  : option (gmap string Value) :=
  (λ it, map_contents w (item_values it)) <$> data (mstore w) !! sid.

(** The handle's local values. *)
Definition store_values (w : World) (s : store) : gmap string Value :=
  map_contents w (Some (st_values s)).

(** Every entry is stored under its own [sid]. *)
Definition sid_invariant (w : World) : Prop :=
  map_Forall (λ key it, item_sid it = key) (data (mstore w)).

Definition fits_int64 (z : Z) : Prop := int64_min ≤ z ≤ int64_max.

(** The entries a sweep at time [t] keeps. *)
Definition live_at (t : Time) (entry : string * dataItem) : Prop :=
  ¬ item_expiredAt entry.2 < t.

Global Instance live_at_dec t entry : Decision (live_at t entry).
Proof. unfold live_at. apply _. Defined.

(** What the scan does to the table, entry by entry of the list it walks. *)
Definition sweep_entries (t : Time) (entries : list (string * dataItem))
    (d : gmap string dataItem) : gmap string dataItem :=
  foldl (λ d entry, if Time_Before (item_expiredAt entry.2) t
                    then delete entry.1 d else d) d entries.

(** Every map held by a table entry has been made. *)
Definition heap_closed (w : World) : Prop :=
  ∀ k it l, data (mstore w) !! k = Some it → item_values it = Some l →
            l ∈ dom (heap w).

(** ** The system with no caller *)

(** The ticker has not been stopped and the [gc] goroutine is in its loop. *)
Definition gc_running (w : World) : Prop :=
  tk_active (ticker (mstore w)) = true ∧ gc_routine w = Receiving.

(** Time passes by [d], the ticker fires, and the [gc] goroutine takes its
    turn on the tick. *)
Definition idle_tick (d : Duration) (w : World) : World :=
  let w1 := set_clock (clock w + d) w in
  let w2 := set_ticker (Ticker_fire (ticker (mstore w1))) w1 in
  match memoryStore_gc w2 with
  | Some w3 => w3
  | None => w2
  end.

(** The first tick comes after [first], then [n] more, one ticker period
    apart. *)
Fixpoint idle_run (first : Duration) (n : nat) (w : World) : World :=
  match n with
  | O => idle_tick first w
  | S n' =>
      let w' := idle_run first n' w in
      idle_tick (tk_period (ticker (mstore w'))) w'
  end.

(** What must change for [gc] to return: the state of the goroutine and
    whether the ticker's channel has been closed. *)
Definition gc_exit_state (w : World) : Routine * bool :=
  (gc_routine w, tk_closed (ticker (mstore w))).

(** A manager on which a tick went into the channel just before [Close]. *)
Definition closed_with_tick (t0 : Time) : World :=
  exec memoryStore_Close
    (set_ticker (Ticker_fire (ticker (mstore (NewMemoryStore t0))))
       (NewMemoryStore t0)).

(** The steps the system takes while no caller runs. *)
Inductive background_step : World → World → Prop :=
| background_time w d :
    0 ≤ d → background_step w (set_clock (clock w + d) w)
| background_tick w :
    background_step w (set_ticker (Ticker_fire (ticker (mstore w))) w)
| background_gc w w' :
    memoryStore_gc w = Some w' → background_step w w'.

Inductive background_steps : World → World → Prop :=
| background_refl w : background_steps w w
| background_more w1 w2 w3 :
    background_steps w1 w2 → background_step w2 w3 → background_steps w1 w3.

(** The handle's map has been made. *)
Definition store_live (w : World) (s : store) : Prop :=
  st_values s ∈ dom (heap w).

(** ** Sample inputs *)

(** A ttl of a little over 292 years, in seconds. *)
Definition wide_ttl : Z := 9223372037.

Definition wide_store : store := mkStore 0%nat "s" wide_ttl 1%positive.

Definition wide_world : World :=
  set_heap {[ 1%positive := ∅ ]} (NewMemoryStore 0).

(** A session saved once, and the handle [Update] then returns for it. *)
Definition saved_world : World :=
  let c := memoryStore_Create 0%nat "s" 60 (NewMemoryStore 0) in
  exec (store_Save c.1.1) c.2.

Definition updated_handle : store :=
  (eval (memoryStore_Update 1%nat "s" 60) saved_world).1.

Definition updated_world : World :=
  exec (memoryStore_Update 1%nat "s" 60) saved_world.

(** Decoders to run [GetUUID] with: the canonical 36-character text form
    (two hexadecimal digits per byte, hyphens after the bytes 4, 6, 8 and 10)
    and the raw form of exactly 16 bytes. *)
Definition hex_value (c : Ascii.ascii) : option N :=
  let n := Ascii.N_of_ascii c in
  if ((48 <=? n) && (n <=? 57))%N then Some (n - 48)%N
  else if ((97 <=? n) && (n <=? 102))%N then Some (n - 87)%N
  else if ((65 <=? n) && (n <=? 70))%N then Some (n - 55)%N
  else None.

Definition hex_byte (hi lo : Ascii.ascii) : option Byte.byte :=
  h ← hex_value hi; l ← hex_value lo; Byte.of_N (16 * h + l)%N.

Definition hyphen : Ascii.ascii := Ascii.ascii_of_N 45.

Definition canonical_Parse (s : string) : option UUID :=
  let cs := String.list_ascii_of_string s in
  if decide (length cs = 36%nat
             ∧ Forall (λ i, cs !! i = Some hyphen) [8; 13; 18; 23]%nat)
  then mapM (λ x, hi ← cs !! x; lo ← cs !! S x; hex_byte hi lo)
            [0; 2; 4; 6; 9; 11; 14; 16; 19; 21; 24; 26; 28; 30; 32; 34]%nat
  else None.

Definition raw_FromBytes (bs : list Byte.byte) : option UUID :=
  if decide (length bs = 16%nat) then Some bs else None.

Definition sample_uuid_text : string := "123e4567-e89b-12d3-a456-426614174000".

Definition sample_uuid : UUID :=
  [Byte.x12; Byte.x3e; Byte.x45; Byte.x67; Byte.xe8; Byte.x9b; Byte.x12;
   Byte.xd3; Byte.xa4; Byte.x56; Byte.x42; Byte.x66; Byte.x14; Byte.x17;
   Byte.x40; Byte.x00].

(** Unfolds the calls down to the primitives. *)
Ltac unfold_calls :=
  unfold run, exec, eval, store_Flush, store_Save, store_Set, store_Get,
    store_Delete, memoryStore_Check, memoryStore_Create, memoryStore_Update,
    memoryStore_Delete, memoryStore_Refresh, memoryStore_delete,
    memoryStore_Close, memoryStore_save, newStore, newDataItem, bind, ret, now, data_Load, data_Store, data_Delete,
    item_write, map_make, map_index, map_assign, map_delete.

(** * Properties *)

(** ** Running a computation *)

Lemma eval_run {A} (c : M A) w : eval c w = (c w).1.
Proof. reflexivity. Qed.

Lemma exec_run {A} (c : M A) w : exec c w = (c w).2.
Proof. reflexivity. Qed.

(** ** Arithmetic of durations *)

Lemma wrap64_fits z : fits_int64 z → wrap64 z = z.
Proof.
  unfold fits_int64, int64_min, int64_max, wrap64. intros Hz.
  rewrite Z.mod_small; lia.
Qed.

Lemma seconds_fits expired :
  fits_int64 (expired * time_Second) → seconds expired = expired * time_Second.
Proof. apply wrap64_fits. Qed.

Lemma wrap64_range z : fits_int64 (wrap64 z).
Proof.
  unfold fits_int64, int64_min, int64_max, wrap64.
  pose proof (Z.mod_pos_bound (z + 2 ^ 63) (2 ^ 64)). lia.
Qed.

(** ** Reading the heap and the table after the primitives *)

Lemma map_contents_alloc w l m :
  heap w !! l = None →
  map_contents (set_heap (<[l := ∅]> (heap w)) w) m = map_contents w m.
Proof.
  intros Hl. destruct m as [l'|]; [|done]. simpl.
  destruct (decide (l = l')) as [->|Hne].
  - by rewrite lookup_insert_eq, Hl.
  - by rewrite lookup_insert_ne.
Qed.

Lemma fresh_loc_unused (h : gmap loc (gmap string Value)) :
  h !! fresh (dom h) = None.
Proof. apply not_elem_of_dom, is_fresh. Qed.

Lemma newStore_nil ctx sid expired w :
  newStore ctx sid expired None w =
  (mkStore ctx sid expired (fresh (dom (heap w))),
   set_heap (<[fresh (dom (heap w)) := ∅]> (heap w)) w).
Proof. reflexivity. Qed.

Lemma newStore_map ctx sid expired m w :
  newStore ctx sid expired (Some m) w = (mkStore ctx sid expired m, w).
Proof. reflexivity. Qed.

(** The handle made by [newStore] reads as the map it was given. *)
Lemma newStore_values ctx sid expired values w :
  store_values (snd (newStore ctx sid expired values w))
               (fst (newStore ctx sid expired values w))
  = map_contents w values.
Proof.
  destruct values as [m|]; [done|].
  rewrite newStore_nil. unfold store_values. simpl.
  by rewrite lookup_insert_eq.
Qed.

(** [newStore] leaves the table and what its entries read as untouched. *)
Lemma newStore_frame ctx sid expired values w :
  let w' := snd (newStore ctx sid expired values w) in
  mstore w' = mstore w ∧ clock w' = clock w ∧ gc_routine w' = gc_routine w ∧
  (∀ m, map_contents w' m = map_contents w m).
Proof.
  destruct values as [m0|]; [done|].
  rewrite newStore_nil. simpl. repeat split.
  intros m. apply map_contents_alloc, fresh_loc_unused.
Qed.

Lemma Create_run ctx sid expired w :
  memoryStore_Create ctx sid expired w =
  ((mkStore ctx sid expired (fresh (dom (heap w))), None),
   set_heap (<[fresh (dom (heap w)) := ∅]> (heap w)) w).
Proof. reflexivity. Qed.

Lemma Create_handle_empty ctx sid expired w :
  store_values (memoryStore_Create ctx sid expired w).2
               (memoryStore_Create ctx sid expired w).1.1 = ∅.
Proof.
  rewrite Create_run. unfold store_values. simpl. by rewrite lookup_insert_eq.
Qed.

Lemma Check_exec ctx sid w : exec (memoryStore_Check ctx sid) w = w.
Proof.
  unfold exec, memoryStore_Check, bind, data_Load, now, ret.
  destruct (data (mstore w) !! sid) as [it|]; simpl; [|done].
  by destruct (Time_After _ _).
Qed.

(** ** Check *)

(** C2: [Check] answers true exactly when the table has an entry for the id
    whose [expiredAt] lies strictly after the current time; from the moment
    the clock reaches [expiredAt] it answers false although the entry is
    still in the table; it returns no error and leaves the whole world, the
    table included, as it was. *)
Theorem Check_spec (ctx : context_Context) (sid : string) (w : World) :
  (fst (eval (memoryStore_Check ctx sid) w) = true ↔
     ∃ it, data (mstore w) !! sid = Some it ∧ clock w < item_expiredAt it)
  ∧ (∀ it, data (mstore w) !! sid = Some it → item_expiredAt it ≤ clock w →
       fst (eval (memoryStore_Check ctx sid) w) = false)
  ∧ snd (eval (memoryStore_Check ctx sid) w) = None
  ∧ exec (memoryStore_Check ctx sid) w = w.
Proof.
  unfold eval, exec, memoryStore_Check, bind, data_Load, now, ret, Time_After.
  destruct (data (mstore w) !! sid) as [it|] eqn:Hit; simpl.
  - destruct (Z.ltb_spec (clock w) (item_expiredAt it)) as [Hlt|Hge]; simpl.
    + split; [split; eauto|]. split; [|done]. intros it' [= <-]. lia.
    + split; [split; [done|]|done]. intros (it' & [= <-] & ?). lia.
  - split; [split; [done|]|done]. intros (? & ? & ?). done.
Qed.

(** ** Create *)

(** C8: [Create] returns, without error, a handle for the id and the ttl
    whose map is newly made and empty; the manager (its table and ticker),
    the clock and every map that existed are as before, so every entry reads
    as before; the handle is the same whatever the table holds; and where the
    id has no entry, it is [Save] on the handle that puts one in the table. *)
Theorem Create_spec (ctx : context_Context) (sid : string) (expired : Z)
    (w : World) :
  let s := fst (eval (memoryStore_Create ctx sid expired) w) in
  let w' := exec (memoryStore_Create ctx sid expired) w in
  snd (eval (memoryStore_Create ctx sid expired) w) = None
  ∧ (st_ctx s = ctx ∧ st_sid s = sid ∧ st_expired s = expired)
  ∧ (st_values s ∉ dom (heap w))
  ∧ store_values w' s = ∅
  ∧ heap w' = <[st_values s := ∅]> (heap w)
  ∧ mstore w' = mstore w
  ∧ clock w' = clock w
  ∧ (∀ k, entry_values w' k = entry_values w k)
  ∧ (∀ d, eval (memoryStore_Create ctx sid expired) (set_data d w)
          = eval (memoryStore_Create ctx sid expired) w)
  ∧ (data (mstore w) !! sid = None →
     data (mstore w') !! sid = None ∧
     is_Some (data (mstore (exec (store_Save s) w')) !! sid)).
Proof.
  unfold eval, exec, memoryStore_Create, bind, ret.
  rewrite newStore_nil. simpl.
  repeat split; try done.
  - apply is_fresh.
  - unfold store_values. simpl. by rewrite lookup_insert_eq.
  - intros k. unfold entry_values. simpl.
    destruct (data (mstore w) !! k) as [it|]; [|done]. simpl. f_equal.
    apply map_contents_alloc, fresh_loc_unused.
  - unfold store_Save, memoryStore_save, bind, data_Load, newDataItem, now,
      data_Store, ret. simpl. rewrite H. simpl. rewrite lookup_insert_eq. eauto.
Qed.

(** ** Save *)

Lemma save_exec sid values expired w :
  exec (memoryStore_save sid values expired) w =
  match data (mstore w) !! sid with
  | Some it => set_data (<[sid := with_values values it]> (data (mstore w))) w
  | None =>
      set_data (<[sid := mkDataItem sid (clock w + seconds expired) values]>
                  (data (mstore w))) w
  end.
Proof.
  unfold exec, memoryStore_save, bind, data_Load, item_write, newDataItem,
    now, data_Store, ret, Time_Add.
  destruct (data (mstore w) !! sid) as [it|] eqn:Hit; simpl; [|done].
  f_equal. apply map_eq. intros k. rewrite lookup_alter.
  destruct (decide (sid = k)) as [->|Hne].
  - by rewrite lookup_insert_eq, Hit.
  - by rewrite lookup_insert_ne.
Qed.

(** The amended C3: [Save] never fails and touches no map of values; the
    entry of the handle's id afterwards holds the handle's own map, so a load
    of that id reads exactly the handle's values, all of them; an entry that
    existed keeps its [sid] and its [expiredAt]; where none existed, and the
    handle's ttl counted in nanoseconds fits a signed 64-bit integer, the new
    entry expires at the current time plus the ttl in seconds; entries under
    any other id are untouched. *)
Theorem Save_spec (s : store) (w : World) :
  let w' := exec (store_Save s) w in
  eval (store_Save s) w = None
  ∧ heap w' = heap w
  ∧ clock w' = clock w
  ∧ (∀ it, data (mstore w) !! st_sid s = Some it →
       data (mstore w') !! st_sid s =
       Some (mkDataItem (item_sid it) (item_expiredAt it) (Some (st_values s))))
  ∧ (data (mstore w) !! st_sid s = None →
     fits_int64 (st_expired s * time_Second) →
       data (mstore w') !! st_sid s =
       Some (mkDataItem (st_sid s) (clock w + st_expired s * time_Second)
               (Some (st_values s))))
  ∧ entry_values w' (st_sid s) = Some (store_values w s)
  ∧ store_values w' s = store_values w s
  ∧ (∀ k, k ≠ st_sid s → data (mstore w') !! k = data (mstore w) !! k).
Proof.
  intros w'. subst w'.
  assert (Hexec : exec (store_Save s) w
                  = exec (memoryStore_save (st_sid s) (Some (st_values s))
                            (st_expired s)) w).
  { unfold exec, store_Save, bind, ret.
    by destruct (memoryStore_save _ _ _ w). }
  assert (Heval : eval (store_Save s) w = None).
  { unfold eval, store_Save, bind, ret.
    by destruct (memoryStore_save _ _ _ w). }
  rewrite Hexec, save_exec.
  split; [done|].
  unfold entry_values, store_values.
  destruct (data (mstore w) !! st_sid s) as [it|] eqn:Hit; simpl;
    rewrite lookup_insert_eq; repeat split; try done.
  - by intros it' [= <-].
  - intros k Hk. by rewrite lookup_insert_ne.
  - intros _ Hfit. by rewrite (seconds_fits _ Hfit).
  - intros k Hk. by rewrite lookup_insert_ne.
Qed.

(** C3 fails for a ttl beyond about 292 years: the handle's ttl is
    9223372037 s, an int64, no entry exists, and the entry [Save] inserts
    does not expire at the current time plus that many seconds (the
    nanosecond product has wrapped and the entry is already expired). *)
Lemma Save_expiry_wraps :
  fits_int64 wide_ttl ∧
  data (mstore wide_world) !! st_sid wide_store = None ∧
  ∃ it, data (mstore (exec (store_Save wide_store) wide_world))
          !! st_sid wide_store = Some it
        ∧ item_expiredAt it ≠ clock wide_world + st_expired wide_store * time_Second
        ∧ item_expiredAt it < clock wide_world.
Proof.
  split; [by vm_compute|]. split; [done|].
  eexists. split; [vm_compute; reflexivity|]. by vm_compute.
Qed.

Lemma Save_spec_witness :
  let s := mkStore 0%nat "s" 60 1%positive in
  let w := set_heap {[ 1%positive := {[ "a" := VInt 1; "b" := VInt 2 ]} ]}
             (NewMemoryStore 5) in
  (data (mstore w) !! st_sid s = None
   ∧ fits_int64 (st_expired s * time_Second))
  ∧ entry_values (exec (store_Save s) w) "s"
    = Some {[ "a" := VInt 1; "b" := VInt 2 ]}
  ∧ (item_expiredAt <$> data (mstore (exec (store_Save s) w)) !! "s")
    = Some (5 + 60 * time_Second).
Proof.
  intros s w.
  assert (Hnone : data (mstore w) !! st_sid s = None) by done.
  assert (Hfit : fits_int64 (st_expired s * time_Second)) by (by vm_compute).
  split; [done|].
  pose proof (Save_spec s w) as H. cbv zeta in H.
  destruct H as (_ & _ & _ & _ & Hd & Hv & _).
  split.
  - change (st_sid s) with "s" in Hv. rewrite Hv. vm_compute. reflexivity.
  - specialize (Hd Hnone Hfit). change (st_sid s) with "s" in Hd.
    rewrite Hd. reflexivity.
Defined.

(** ** Update *)

Lemma Update_absent ctx sid expired w :
  data (mstore w) !! sid = None →
  memoryStore_Update ctx sid expired w = memoryStore_Create ctx sid expired w.
Proof.
  intros Hit. unfold memoryStore_Update, memoryStore_Create, bind, data_Load.
  by rewrite Hit.
Qed.

Lemma Update_present ctx sid expired w it :
  data (mstore w) !! sid = Some it →
  let it' := with_expiredAt (clock w + seconds expired) it in
  let w1 := set_data (<[sid := it']> (data (mstore w))) w in
  memoryStore_Update ctx sid expired w =
  ((fst (newStore ctx sid expired (item_values it) w1), None),
   snd (newStore ctx sid expired (item_values it) w1)).
Proof.
  intros Hit it' w1. subst it' w1.
  unfold memoryStore_Update, bind, data_Load, now, item_write, data_Store, ret,
    Time_Add.
  rewrite Hit. simpl.
  replace (<[sid:=with_expiredAt (clock w + seconds expired) it]>
             (alter (with_expiredAt (clock w + seconds expired)) sid
                (data (mstore w))))
    with (<[sid:=with_expiredAt (clock w + seconds expired) it]>
            (data (mstore w))).
  - by destruct (newStore ctx sid expired (item_values it) _).
  - apply map_eq. intros k. destruct (decide (sid = k)) as [->|Hne].
    + by rewrite !lookup_insert_eq.
    + by rewrite !lookup_insert_ne, lookup_alter_ne.
Qed.

(** The amended C4: [Update] returns no error and a handle for the id and
    the ttl.  If the id has an entry, that entry is changed at once, with no
    [Save]: it keeps its [sid] and its values, and, the ttl counted in
    nanoseconds fitting a signed 64-bit integer, it now expires at the current
    time plus the ttl in seconds; the handle reads exactly what the entry
    reads; the other entries are untouched.  If the id has no entry,
    [Update] is [Create]: same handle, same world, the table unchanged and
    the handle empty. *)
Theorem Update_spec (ctx : context_Context) (sid : string) (expired : Z)
    (w : World) :
  let s := fst (eval (memoryStore_Update ctx sid expired) w) in
  let w' := exec (memoryStore_Update ctx sid expired) w in
  snd (eval (memoryStore_Update ctx sid expired) w) = None
  ∧ (st_ctx s = ctx ∧ st_sid s = sid ∧ st_expired s = expired)
  ∧ (∀ it, data (mstore w) !! sid = Some it →
       (fits_int64 (expired * time_Second) →
        data (mstore w') =
          <[sid := mkDataItem (item_sid it) (clock w + expired * time_Second)
                     (item_values it)]> (data (mstore w)))
       ∧ (∃ t, data (mstore w') =
                 <[sid := mkDataItem (item_sid it) t (item_values it)]>
                   (data (mstore w)))
       ∧ entry_values w' sid = entry_values w sid
       ∧ Some (store_values w' s) = entry_values w' sid)
  ∧ (data (mstore w) !! sid = None →
       memoryStore_Update ctx sid expired w
         = memoryStore_Create ctx sid expired w
       ∧ mstore w' = mstore w
       ∧ store_values w' s = ∅).
Proof.
  intros s w'. subst s w'. unfold eval, exec.
  destruct (data (mstore w) !! sid) as [it|] eqn:Hit.
  - rewrite (Update_present _ _ _ _ _ Hit). simpl.
    set (w1 := set_data _ w).
    pose proof (newStore_frame ctx sid expired (item_values it) w1)
      as (Hm & _ & _ & Hc).
    pose proof (newStore_values ctx sid expired (item_values it) w1) as Hv.
    split; [done|]. split.
    { by destruct (item_values it). }
    split; [|done]. intros it' [= <-].
    rewrite Hm. split.
    { intros Hfit. simpl. by rewrite (seconds_fits _ Hfit). }
    split; [by eexists|].
    unfold entry_values. rewrite Hm. simpl.
    rewrite lookup_insert_eq, Hit. simpl. rewrite Hv, Hc.
    by split.
  - rewrite (Update_absent _ _ _ _ Hit).
    pose proof (Create_handle_empty ctx sid expired w) as Hv.
    rewrite Create_run in *. by repeat split.
Qed.

(** C4 fails for a ttl beyond about 292 years: the entry exists, the ttl is
    9223372037 s, and after [Update] the entry does not expire at the current
    time plus that many seconds; it has already expired. *)
Lemma Update_expiry_wraps :
  let w := exec (store_Save (mkStore 0%nat "s" 60 1%positive)) wide_world in
  let w' := exec (memoryStore_Update 0%nat "s" wide_ttl) w in
  fits_int64 wide_ttl ∧
  is_Some (data (mstore w) !! "s") ∧
  ∃ it, data (mstore w') !! "s" = Some it
        ∧ item_expiredAt it ≠ clock w + wide_ttl * time_Second
        ∧ item_expiredAt it < clock w.
Proof.
  intros w w'. split; [by vm_compute|].
  split; [eexists; vm_compute; reflexivity|].
  eexists. split; [vm_compute; reflexivity|]. by vm_compute.
Qed.

Lemma Update_spec_witness :
  let w := exec (store_Save (mkStore 0%nat "s" 60 1%positive))
             (set_heap {[ 1%positive := {[ "k" := VString "v" ]} ]}
                (NewMemoryStore 5)) in
  (data (mstore w) !! "s"
     = Some (mkDataItem "s" (5 + 60 * time_Second) (Some 1%positive))
   ∧ fits_int64 (120 * time_Second))
  ∧ (item_expiredAt <$>
       data (mstore (exec (memoryStore_Update 1%nat "s" 120) w)) !! "s")
    = Some (5 + 120 * time_Second).
Proof.
  intros w.
  assert (Hit : data (mstore w) !! "s"
                = Some (mkDataItem "s" (5 + 60 * time_Second) (Some 1%positive)))
    by (vm_compute; reflexivity).
  assert (Hfit : fits_int64 (120 * time_Second)) by (by vm_compute).
  split; [done|].
  pose proof (Update_spec 1%nat "s" 120 w) as H. cbv zeta in H.
  destruct H as (_ & _ & H & _).
  destruct (H _ Hit) as (Hd & _). rewrite (Hd Hfit).
  by rewrite lookup_insert_eq.
Defined.

(** ** Refresh *)

Lemma Refresh_absent ctx oldsid sid expired w :
  data (mstore w) !! oldsid = None →
  memoryStore_Refresh ctx oldsid sid expired w
  = memoryStore_Create ctx sid expired w.
Proof.
  intros Hit. unfold memoryStore_Refresh, memoryStore_Create, bind, data_Load.
  by rewrite Hit.
Qed.

Lemma Refresh_present ctx oldsid sid expired w it :
  data (mstore w) !! oldsid = Some it →
  let newItem := mkDataItem sid (clock w + seconds expired) (item_values it) in
  let w1 := set_data (delete oldsid (<[sid := newItem]> (data (mstore w)))) w in
  memoryStore_Refresh ctx oldsid sid expired w =
  ((fst (newStore ctx sid expired (item_values it) w1), None),
   snd (newStore ctx sid expired (item_values it) w1)).
Proof.
  intros Hit newItem w1. subst newItem w1.
  unfold memoryStore_Refresh, bind, data_Load, newDataItem, now, data_Store,
    memoryStore_delete, data_Delete, ret, Time_Add.
  rewrite Hit. simpl.
  by destruct (newStore ctx sid expired (item_values it) _).
Qed.

Lemma Check_eval ctx sid w :
  fst (eval (memoryStore_Check ctx sid) w) =
  match data (mstore w) !! sid with
  | Some it => bool_decide (clock w < item_expiredAt it)
  | None => false
  end.
Proof.
  unfold eval, memoryStore_Check, bind, data_Load, now, ret, Time_After.
  destruct (data (mstore w) !! sid) as [it|]; simpl; [|done].
  destruct (Z.ltb_spec (clock w) (item_expiredAt it)); simpl;
    [by rewrite bool_decide_eq_true_2 | rewrite bool_decide_eq_false_2; [done|lia]].
Qed.

(** The amended C5: [Refresh] returns no error and a handle bound to the new
    id.  If the old id has an entry and the two ids differ, the table
    afterwards is the old table with an entry under the new id that carries
    the old entry's values, and with the old id removed; the handle reads the
    old entry's values; [Check] of the old id is false from then on; and,
    the ttl counted in nanoseconds fitting a signed 64-bit integer, the new
    entry expires at the current time plus the ttl in seconds and [Check] of
    the new id is true at any time before that (there is such a time only
    for a positive ttl).  If the old id has no entry, [Refresh] is [Create]
    on the new id: the table is unchanged, the handle is empty, and [Check]
    of the old id is false. *)
Theorem Refresh_spec (ctx : context_Context) (oldsid sid : string)
    (expired : Z) (w : World) :
  let s := fst (eval (memoryStore_Refresh ctx oldsid sid expired) w) in
  let w' := exec (memoryStore_Refresh ctx oldsid sid expired) w in
  snd (eval (memoryStore_Refresh ctx oldsid sid expired) w) = None
  ∧ (st_ctx s = ctx ∧ st_sid s = sid ∧ st_expired s = expired)
  ∧ (∀ it, data (mstore w) !! oldsid = Some it → oldsid ≠ sid →
       (∃ t, data (mstore w') =
               delete oldsid
                 (<[sid := mkDataItem sid t (item_values it)]> (data (mstore w))))
       ∧ data (mstore w') !! oldsid = None
       ∧ entry_values w' sid = entry_values w oldsid
       ∧ Some (store_values w' s) = entry_values w oldsid
       ∧ (∀ c d, fst (eval (memoryStore_Check c oldsid)
                        (set_clock (clock w' + d) w')) = false)
       ∧ (fits_int64 (expired * time_Second) →
          data (mstore w') !! sid =
            Some (mkDataItem sid (clock w + expired * time_Second)
                    (item_values it))
          ∧ ∀ c d, 0 ≤ d < expired * time_Second →
              fst (eval (memoryStore_Check c sid)
                     (set_clock (clock w' + d) w')) = true))
  ∧ (data (mstore w) !! oldsid = None →
       memoryStore_Refresh ctx oldsid sid expired w
         = memoryStore_Create ctx sid expired w
       ∧ mstore w' = mstore w
       ∧ store_values w' s = ∅
       ∧ (∀ c d, fst (eval (memoryStore_Check c oldsid)
                        (set_clock (clock w' + d) w')) = false)).
Proof.
  intros s w'. subst s w'.
  destruct (data (mstore w) !! oldsid) as [it|] eqn:Hit.
  - pose proof (Refresh_present ctx _ sid expired _ _ Hit) as HR. simpl in HR.
    set (newItem := mkDataItem _ _ _) in *.
    set (w1 := set_data _ w) in *.
    rewrite (eval_run (memoryStore_Refresh ctx oldsid sid expired)),
      (exec_run (memoryStore_Refresh ctx oldsid sid expired)), HR.
    clear HR. simpl.
    pose proof (newStore_frame ctx sid expired (item_values it) w1)
      as (Hm & Hclk & _ & Hc).
    pose proof (newStore_values ctx sid expired (item_values it) w1) as Hv.
    assert (Hold : data (mstore w1) !! oldsid = None)
      by apply lookup_delete_eq.
    split; [done|]. split.
    { by destruct (item_values it). }
    split; [|done]. intros it' [= <-] Hne.
    assert (Hnew : data (mstore w1) !! sid = Some newItem).
    { simpl. by rewrite lookup_delete_ne, lookup_insert_eq. }
    rewrite Hm. split; [by eexists|]. split; [done|].
    unfold entry_values. rewrite Hm, Hnew, Hit. simpl. rewrite Hv, Hc.
    split; [done|]. split; [done|]. split.
    + intros c d. rewrite Check_eval. simpl. by rewrite Hm, Hold.
    + intros Hfit. subst newItem. rewrite (seconds_fits _ Hfit) in *.
      split; [done|].
      intros c d Hd. rewrite Check_eval. simpl. rewrite Hm, Hnew, Hclk.
      apply bool_decide_eq_true_2. simpl. lia.
  - rewrite (eval_run (memoryStore_Refresh ctx oldsid sid expired)),
      (exec_run (memoryStore_Refresh ctx oldsid sid expired)),
      (Refresh_absent _ _ _ _ _ Hit).
    pose proof (Create_handle_empty ctx sid expired w) as Hv.
    rewrite Create_run in *. simpl.
    split; [done|]. split; [done|]. split; [done|]. intros _.
    split; [done|]. split; [done|]. split; [done|].
    intros c d. rewrite Check_eval. simpl. by rewrite Hit.
Qed.

(** C5 fails when the old id has no entry: [Refresh] on a new manager creates
    no entry under the new id, and [Check] of the new id is false. *)
Lemma Refresh_absent_creates_nothing :
  let w := NewMemoryStore 0 in
  let w' := exec (memoryStore_Refresh 0%nat "old" "new" 60) w in
  data (mstore w) !! "old" = None
  ∧ data (mstore w') !! "new" = None
  ∧ fst (eval (memoryStore_Check 0%nat "new") w') = false.
Proof. by vm_compute. Qed.

Lemma Refresh_spec_witness :
  let w := exec (store_Save (mkStore 0%nat "old" 60 1%positive))
             (set_heap {[ 1%positive := {[ "x" := VString "1" ]} ]}
                (NewMemoryStore 5)) in
  let w' := exec (memoryStore_Refresh 1%nat "old" "new" 60) w in
  (data (mstore w) !! "old"
     = Some (mkDataItem "old" (5 + 60 * time_Second) (Some 1%positive))
   ∧ "old" ≠ "new" ∧ fits_int64 (60 * time_Second))
  ∧ entry_values w' "new" = Some {[ "x" := VString "1" ]}
  ∧ fst (eval (memoryStore_Check 0%nat "old") (set_clock (clock w' + 0) w'))
    = false
  ∧ fst (eval (memoryStore_Check 0%nat "new") (set_clock (clock w' + 0) w'))
    = true.
Proof.
  intros w w'.
  assert (Hit : data (mstore w) !! "old"
                = Some (mkDataItem "old" (5 + 60 * time_Second)
                          (Some 1%positive)))
    by (vm_compute; reflexivity).
  assert (Hfit : fits_int64 (60 * time_Second)) by (by vm_compute).
  assert (Hne : "old" ≠ "new") by done.
  split; [done|].
  pose proof (Refresh_spec 1%nat "old" "new" 60 w) as H. cbv zeta in H.
  destruct H as (_ & _ & H & _).
  destruct (H _ Hit Hne) as (_ & _ & Hv & _ & Ho & Hn).
  destruct (Hn Hfit) as [_ Hc].
  subst w'. split; [|split].
  - rewrite Hv. vm_compute. reflexivity.
  - apply Ho.
  - apply Hc. vm_compute. split; [discriminate | reflexivity].
Defined.

(** ** The sweep *)

Lemma set_data_same w : set_data (data (mstore w)) w = w.
Proof. by destruct w as [? ? [? ?] ?]. Qed.

Lemma gc_visit_run key item w :
  gc_visit key item w =
  (true, if Time_Before (item_expiredAt item) (clock w)
         then set_data (delete key (data (mstore w))) w else w).
Proof.
  unfold gc_visit, bind, now, data_Delete, ret.
  by destruct (Time_Before _ _).
Qed.

Lemma sweep_entries_cons t key item rest d :
  sweep_entries t ((key, item) :: rest) d =
  sweep_entries t rest
    (if Time_Before (item_expiredAt item) t then delete key d else d).
Proof. reflexivity. Qed.

Lemma range_gc_exec entries w :
  exec (range_over gc_visit entries) w =
  set_data (sweep_entries (clock w) entries (data (mstore w))) w.
Proof.
  revert w. induction entries as [|[key item] rest IH]; intros w.
  - unfold exec, sweep_entries. simpl. by rewrite set_data_same.
  - rewrite sweep_entries_cons. unfold exec in *. simpl. unfold bind at 1.
    rewrite gc_visit_run, IH.
    by destruct (Time_Before _ _).
Qed.

Lemma sweep_entries_absent t entries d k :
  d !! k = None → sweep_entries t entries d !! k = None.
Proof.
  revert d. induction entries as [|[key item] rest IH]; intros d Hk; [done|].
  rewrite sweep_entries_cons. apply IH.
  destruct (Time_Before _ _); [|done].
  destruct (decide (key = k)) as [->|Hne].
  - apply lookup_delete_eq.
  - by rewrite lookup_delete_ne.
Qed.

Lemma sweep_entries_expired t entries d k it :
  (k, it) ∈ entries → item_expiredAt it < t →
  sweep_entries t entries d !! k = None.
Proof.
  revert d. induction entries as [|[key item] rest IH]; intros d Hin Hexp.
  - by apply elem_of_nil in Hin.
  - rewrite sweep_entries_cons.
    apply elem_of_cons in Hin as [[= <- <-]|Hin]; [|by apply IH].
    unfold Time_Before.
    destruct (Z.ltb_spec (item_expiredAt it) t); [|lia].
    apply sweep_entries_absent, lookup_delete_eq.
Qed.

Lemma sweep_entries_live t entries d k :
  (∀ it, (k, it) ∈ entries → ¬ item_expiredAt it < t) →
  sweep_entries t entries d !! k = d !! k.
Proof.
  revert d. induction entries as [|[key item] rest IH]; intros d Hlive; [done|].
  rewrite sweep_entries_cons.
  assert (Hrest : ∀ it, (k, it) ∈ rest → ¬ item_expiredAt it < t).
  { intros it Hin. apply Hlive. by right. }
  rewrite (IH _ Hrest). unfold Time_Before.
  destruct (Z.ltb_spec (item_expiredAt item) t) as [Hlt|Hge]; [|done].
  apply lookup_delete_ne. intros ->. apply (Hlive item); [by left|done].
Qed.

Lemma gc_pass_exec w :
  exec memoryStore_gc_pass w =
  set_data (filter (live_at (clock w)) (data (mstore w))) w.
Proof.
  unfold memoryStore_gc_pass, data_Range.
  change (exec (λ w0, range_over gc_visit (map_to_list (data (mstore w0))) w0) w)
    with (exec (range_over gc_visit (map_to_list (data (mstore w)))) w).
  rewrite range_gc_exec. f_equal. apply map_eq. intros k.
  destruct (data (mstore w) !! k) as [it|] eqn:Hk.
  - destruct (decide (item_expiredAt it < clock w)) as [Hexp|Hlive].
    + rewrite (sweep_entries_expired _ _ _ k it);
        [|by apply elem_of_map_to_list|done].
      symmetry. apply map_lookup_filter_None. right. intros it' Hit' Hl.
      rewrite Hk in Hit'. injection Hit' as <-. by apply Hl.
    + rewrite sweep_entries_live.
      * rewrite Hk. symmetry. by apply map_lookup_filter_Some.
      * intros it' Hin. apply elem_of_map_to_list in Hin.
        rewrite Hk in Hin. by injection Hin as <-.
  - rewrite sweep_entries_absent by done.
    symmetry. apply map_lookup_filter_None. by left.
Qed.

Lemma filter_live_lookup t (d : gmap string dataItem) k :
  filter (live_at t) d !! k =
  match d !! k with
  | Some it => if decide (item_expiredAt it < t) then None else Some it
  | None => None
  end.
Proof.
  destruct (d !! k) as [it|] eqn:Hk.
  - destruct (decide (item_expiredAt it < t)) as [Hexp|Hlive].
    + apply map_lookup_filter_None. right. intros it' Hit' Hl.
      rewrite Hk in Hit'. injection Hit' as <-. by apply Hl.
    + by apply map_lookup_filter_Some.
  - apply map_lookup_filter_None. by left.
Qed.

Lemma filter_live_later t1 t2 (d : gmap string dataItem) :
  t1 ≤ t2 → filter (live_at t2) (filter (live_at t1) d) = filter (live_at t2) d.
Proof.
  intros Hle. apply map_eq. intros k. rewrite !filter_live_lookup.
  destruct (d !! k) as [it|]; [|done].
  repeat case_decide; try done; lia.
Qed.

Lemma steps_trans w1 w2 w3 : steps w1 w2 → steps w2 w3 → steps w1 w3.
Proof.
  intros H12 H23. induction H23 as [|? ? ? _ IH Hs]; [done|].
  eapply steps_step; [by apply IH | done].
Qed.

Lemma idle_tick_run d w :
  gc_running w →
  idle_tick d w =
  exec memoryStore_gc_pass
    (set_ticker (Ticker_receive (Ticker_fire (ticker (mstore w))))
       (set_clock (clock w + d) w)).
Proof.
  intros [Hact Hgc]. unfold idle_tick, memoryStore_gc, Ticker_fire. simpl.
  by rewrite Hgc, Hact.
Qed.

Lemma idle_tick_steps d w : 0 ≤ d → gc_running w → steps w (idle_tick d w).
Proof.
  intros Hd [Hact Hgc]. unfold idle_tick.
  set (w1 := set_clock (clock w + d) w).
  set (w2 := set_ticker (Ticker_fire (ticker (mstore w1))) w1).
  assert (H2 : steps w w2).
  { eapply steps_step; [eapply steps_step; [apply steps_refl|]|].
    - by apply (step_time w d).
    - apply (step_tick w1). }
  destruct (memoryStore_gc w2) as [w3|] eqn:Hgc2; [|done].
  eapply steps_step; [exact H2|]. by apply step_gc.
Qed.

Lemma idle_tick_state d w :
  gc_running w →
  let w' := idle_tick d w in
  gc_running w'
  ∧ tk_period (ticker (mstore w')) = tk_period (ticker (mstore w))
  ∧ clock w' = clock w + d
  ∧ heap w' = heap w
  ∧ data (mstore w') = filter (live_at (clock w + d)) (data (mstore w)).
Proof.
  intros Hrun. simpl. rewrite (idle_tick_run _ _ Hrun), gc_pass_exec.
  destruct Hrun as [Hact Hgc]. unfold gc_running, Ticker_fire. simpl.
  by rewrite Hact.
Qed.

Lemma idle_run_state first n w :
  gc_running w → 0 ≤ first → 0 ≤ tk_period (ticker (mstore w)) →
  let w' := idle_run first n w in
  let t := clock w + first + Z.of_nat n * tk_period (ticker (mstore w)) in
  steps w w'
  ∧ gc_running w'
  ∧ tk_period (ticker (mstore w')) = tk_period (ticker (mstore w))
  ∧ clock w' = t
  ∧ heap w' = heap w
  ∧ data (mstore w') = filter (live_at t) (data (mstore w)).
Proof.
  intros Hrun Hfirst Hp. induction n as [|n IH].
  - simpl. pose proof (idle_tick_state first w Hrun) as (? & ? & ? & ? & ?).
    pose proof (idle_tick_steps first w Hfirst Hrun).
    rewrite Z.add_0_r. done.
  - simpl in IH. destruct IH as (Hs & Hrun' & Hper & Hclk & Hheap & Hdata).
    cbn [idle_run].
    set (w' := idle_run first n w) in *.
    pose proof (idle_tick_state (tk_period (ticker (mstore w'))) w' Hrun')
      as (? & Hper2 & Hclk2 & Hheap2 & Hdata2).
    pose proof (idle_tick_steps (tk_period (ticker (mstore w'))) w') as Hs2.
    cbv zeta.
    replace (clock w + first
             + Z.of_nat (S n) * tk_period (ticker (mstore w)))
      with (clock w' + tk_period (ticker (mstore w'))) by (rewrite Hper; lia).
    split; [eapply steps_trans; [exact Hs | apply Hs2; [lia | done]]|].
    split; [done|]. split; [congruence|]. split; [done|].
    split; [congruence|].
    rewrite Hdata2, Hdata. apply filter_live_later. lia.
Qed.

(** C6: one sweep pass turns the table into the table without the entries
    whose [expiredAt] is strictly before the current time: such an entry is
    gone, every other entry is what it was, nothing is added, and no map of
    values and no clock changes.  And with the manager's ticker running and
    no caller at all, an entry is out of the table after finitely many
    ticks, at a time no later than one ticker period after the later of the
    starting time and the entry's [expiredAt] (the first tick comes within a
    period, the next ones a period apart, and the [gc] goroutine sweeps at
    each tick). *)
Theorem gc_spec :
  (∀ w : World,
     let w' := exec memoryStore_gc_pass w in
     data (mstore w') = filter (live_at (clock w)) (data (mstore w))
     ∧ (∀ k, data (mstore w') !! k =
             match data (mstore w) !! k with
             | Some it =>
                 if decide (item_expiredAt it < clock w) then None else Some it
             | None => None
             end)
     ∧ heap w' = heap w ∧ clock w' = clock w ∧ ticker (mstore w') = ticker (mstore w))
  ∧ (∀ (w : World) (k : string) (it : dataItem) (first : Duration),
       gc_running w →
       0 < first ≤ tk_period (ticker (mstore w)) →
       data (mstore w) !! k = Some it →
       ∃ n, let w' := idle_run first n w in
            steps w w'
            ∧ data (mstore w') !! k = None
            ∧ clock w' ≤ Z.max (clock w) (item_expiredAt it)
                         + tk_period (ticker (mstore w))).
Proof.
  split.
  - intros w. simpl. rewrite gc_pass_exec. simpl.
    repeat split. intros k. apply filter_live_lookup.
  - intros w k it first Hrun Hfirst Hk.
    set (p := tk_period (ticker (mstore w))) in *.
    set (e := item_expiredAt it).
    set (c1 := clock w + first).
    set (n := if decide (e < c1) then 0%nat
              else Z.to_nat ((e - c1) / p + 1)).
    exists n.
    pose proof (idle_run_state first n w Hrun) as H. simpl in H.
    destruct H as (Hs & _ & _ & Hclk & _ & Hdata); [lia | fold p; lia |].
    fold p in Hclk, Hdata. simpl.
    assert (Ht : e < c1 + Z.of_nat n * p ≤ Z.max (clock w) e + p).
    { subst n. case_decide as He.
      - simpl. lia.
      - assert (0 ≤ (e - c1) / p) by (apply Z.div_pos; lia).
        rewrite Z2Nat.id by lia.
        pose proof (Z.mul_div_le (e - c1) p).
        pose proof (Z.mul_succ_div_gt (e - c1) p).
        lia. }
    split; [done|]. split.
    + rewrite Hdata, filter_live_lookup, Hk.
      fold e c1. case_decide; [done|lia].
    + rewrite Hclk. fold c1. lia.
Qed.

Lemma gc_spec_witness :
  let w := exec (store_Save (mkStore 0%nat "s" 60 1%positive))
             (set_heap {[ 1%positive := ∅ ]} (NewMemoryStore 5)) in
  (gc_running w
   ∧ 0 < 1 ≤ tk_period (ticker (mstore w))
   ∧ data (mstore w) !! "s"
     = Some (mkDataItem "s" (5 + 60 * time_Second) (Some 1%positive)))
  ∧ ∃ n, data (mstore (idle_run 1 n w)) !! "s" = None
         ∧ clock (idle_run 1 n w) ≤ 5 + 61 * time_Second.
Proof.
  intros w.
  assert (Hrun : gc_running w) by done.
  assert (Hfirst : 0 < 1 ≤ tk_period (ticker (mstore w))) by (by vm_compute).
  assert (Hk : data (mstore w) !! "s"
               = Some (mkDataItem "s" (5 + 60 * time_Second) (Some 1%positive)))
    by (vm_compute; reflexivity).
  split; [done|].
  destruct (proj2 gc_spec w "s" _ 1 Hrun Hfirst Hk) as (n & _ & Hgone & Hclk).
  exists n. split; [exact Hgone|].
  etrans; [exact Hclk|]. by vm_compute.
Defined.

(** ** Close and the [gc] goroutine *)

Lemma run_gc_exit_state c w : gc_exit_state (run c w) = gc_exit_state w.
Proof.
  destruct c; unfold_calls; simpl; repeat case_match; simplify_eq/=; done.
Qed.

Lemma step_gc_exit_state w w' :
  step w w' → gc_exit_state w = (Receiving, false) →
  gc_exit_state w' = (Receiving, false).
Proof.
  intros Hstep Hw. destruct Hstep as [w d Hd|w|w w' Hgc|w c].
  - done.
  - unfold gc_exit_state, Ticker_fire in *. simpl.
    by destruct (tk_active (ticker (mstore w))).
  - unfold memoryStore_gc in Hgc. unfold gc_exit_state in *.
    injection Hw as Hr Hc. rewrite Hr, Hc in Hgc.
    destruct (tk_pending (ticker (mstore w))); [|done].
    injection Hgc as <-. rewrite gc_pass_exec. simpl. by rewrite Hr, Hc.
  - by rewrite run_gc_exit_state.
Qed.

Lemma steps_gc_exit_state w w' :
  steps w w' → gc_exit_state w = (Receiving, false) →
  gc_exit_state w' = (Receiving, false).
Proof.
  induction 1 as [|w1 w2 w3 _ IH Hs]; [done|].
  intros Hw. eapply step_gc_exit_state; [exact Hs | by apply IH].
Qed.

(** C7 on the code: after [Close] on a new manager the ticker is stopped,
    but [gc] has not returned and cannot take a turn: it is blocked on the
    channel, which nothing closes, and in every continuation of the system it
    is still in its loop.  If a tick was already in the channel when [Close]
    ran, [gc] still runs one more sweep afterwards. *)
Theorem Close_leaves_gc_blocked (t0 : Time) :
  let w := exec memoryStore_Close (NewMemoryStore t0) in
  tk_active (ticker (mstore w)) = false
  ∧ gc_routine w = Receiving
  ∧ memoryStore_gc w = None
  ∧ (∀ w', steps w w' → gc_routine w' = Receiving)
  ∧ memoryStore_gc (closed_with_tick t0)
    = Some (exec memoryStore_gc_pass
              (set_ticker (Ticker_receive (ticker (mstore (closed_with_tick t0))))
                 (closed_with_tick t0))).
Proof.
  simpl. repeat split.
  intros w' Hs.
  pose proof (steps_gc_exit_state _ _ Hs eq_refl) as H.
  by injection H.
Qed.

Lemma Close_leaves_gc_blocked_witness :
  gc_routine
    (run (call_Delete 0%nat "s")
       (set_clock (clock (exec memoryStore_Close (NewMemoryStore 0)) + 5)
          (exec memoryStore_Close (NewMemoryStore 0))))
  = Receiving.
Proof.
  apply (proj1 (proj2 (proj2 (proj2 (Close_leaves_gc_blocked 0))))).
  eapply steps_step;
    [eapply steps_step; [apply steps_refl | apply (step_time _ 5); lia]
    | apply step_call].
Defined.

(** ** The table invariant *)

Lemma sid_invariant_data w w' :
  data (mstore w') = data (mstore w) → sid_invariant w → sid_invariant w'.
Proof. unfold sid_invariant. by intros ->. Qed.

Lemma sid_invariant_insert w w' sid it :
  data (mstore w') = <[sid := it]> (data (mstore w)) → item_sid it = sid →
  sid_invariant w → sid_invariant w'.
Proof.
  unfold sid_invariant. intros -> Hsid Hinv. by apply map_Forall_insert_2.
Qed.

Lemma sid_invariant_save sid values expired w :
  sid_invariant w → sid_invariant (exec (memoryStore_save sid values expired) w).
Proof.
  intros Hinv. rewrite save_exec.
  destruct (data (mstore w) !! sid) as [it|] eqn:Hit.
  - eapply sid_invariant_insert; [done| |done]. simpl.
    by apply (map_Forall_lookup_1 _ _ _ _ Hinv).
  - by eapply sid_invariant_insert.
Qed.

Lemma sid_invariant_gc_pass w :
  sid_invariant w → sid_invariant (exec memoryStore_gc_pass w).
Proof.
  unfold sid_invariant. intros Hinv. rewrite gc_pass_exec. simpl.
  intros k it Hk. apply map_lookup_filter_Some_1_1 in Hk. by apply Hinv.
Qed.

Lemma Create_data ctx sid expired w :
  data (mstore (memoryStore_Create ctx sid expired w).2) = data (mstore w).
Proof. reflexivity. Qed.

Lemma sid_invariant_run c w : sid_invariant w → sid_invariant (run c w).
Proof.
  intros Hinv. destruct c; simpl.
  - by rewrite Check_exec.
  - eapply sid_invariant_data; [|done]. apply Create_data.
  - destruct (data (mstore w) !! sid) as [it|] eqn:Hit.
    + unfold exec. rewrite (Update_present _ _ _ _ _ Hit). simpl.
      pose proof (newStore_frame ctx sid expired (item_values it)
        (set_data (<[sid:=with_expiredAt (clock w + seconds expired) it]>
                     (data (mstore w))) w)) as (Hm & _).
      eapply sid_invariant_insert; [by rewrite Hm| |done]. simpl.
      by apply (map_Forall_lookup_1 _ _ _ _ Hinv).
    + unfold exec. rewrite (Update_absent _ _ _ _ Hit).
      eapply sid_invariant_data; [|done]. apply Create_data.
  - unfold sid_invariant in *. by apply map_Forall_delete.
  - destruct (data (mstore w) !! oldsid) as [it|] eqn:Hit.
    + unfold exec. rewrite (Refresh_present _ _ _ _ _ _ Hit). simpl.
      match goal with
      | |- sid_invariant (newStore _ _ _ _ ?w1).2 =>
          pose proof (newStore_frame ctx sid expired (item_values it) w1)
            as (Hm & _)
      end.
      unfold sid_invariant in *. rewrite Hm. simpl.
      by apply map_Forall_delete, map_Forall_insert_2.
    + unfold exec. rewrite (Refresh_absent _ _ _ _ _ Hit).
      eapply sid_invariant_data; [|done]. apply Create_data.
  - done.
  - done.
  - eapply sid_invariant_data; [|done]. unfold_calls. simpl.
    by repeat case_match.
  - eapply sid_invariant_data; [|done]. unfold_calls. simpl.
    by repeat case_match.
  - replace (exec (store_Save s) w)
      with (exec (memoryStore_save (st_sid s) (Some (st_values s))
                    (st_expired s)) w).
    + by apply sid_invariant_save.
    + unfold exec, store_Save, bind, ret. by destruct (memoryStore_save _ _ _ w).
  - replace (exec (store_Flush s) w)
      with (exec (memoryStore_save (st_sid s) (Some (fresh (dom (heap w))))
                    (st_expired s))
              (set_heap (<[fresh (dom (heap w)) := ∅]> (heap w)) w)).
    + by apply sid_invariant_save.
    + unfold exec, store_Flush, store_Save, bind, ret, map_make. simpl.
      by destruct (memoryStore_save _ _ _ _).
Qed.

(** C10: a new manager's table has every entry stored under its own [sid]
    (it has none), and every step of the system keeps it so: each call of the
    manager ([Check], [Create], [Update], [Delete], [Refresh], [Close]) and of
    a handle ([Set], [Get], [Delete], [Save], [Flush]), a sweep pass, a tick
    and the passing of time. *)
Theorem sid_invariant_preserved :
  (∀ t0, sid_invariant (NewMemoryStore t0))
  ∧ (∀ w, sid_invariant w → sid_invariant (exec memoryStore_gc_pass w))
  ∧ (∀ w c, sid_invariant w → sid_invariant (run c w))
  ∧ (∀ w w', sid_invariant w → step w w' → sid_invariant w')
  ∧ (∀ t0 w, steps (NewMemoryStore t0) w → sid_invariant w).
Proof.
  assert (Hinit : ∀ t0, sid_invariant (NewMemoryStore t0)).
  { intros t0. apply map_Forall_empty. }
  assert (Hstep : ∀ w w', sid_invariant w → step w w' → sid_invariant w').
  { intros w w' Hinv Hstep. destruct Hstep as [w d Hd|w|w w' Hgc|w c].
    - done.
    - done.
    - unfold memoryStore_gc in Hgc.
      destruct (gc_routine w); [|done].
      destruct (tk_pending (ticker (mstore w))).
      + injection Hgc as <-. by apply sid_invariant_gc_pass.
      + destruct (tk_closed (ticker (mstore w))); [|done].
        by injection Hgc as <-.
    - by apply sid_invariant_run. }
  split; [done|]. split; [apply sid_invariant_gc_pass|].
  split; [intros; by apply sid_invariant_run|]. split; [done|].
  intros t0 w Hs. remember (NewMemoryStore t0) as w0 eqn:Hw0.
  induction Hs as [|w1 w2 w3 _ IH Hs]; [subst; apply Hinit|].
  eapply Hstep; [by apply IH | done].
Qed.

Lemma sid_invariant_preserved_witness :
  sid_invariant
    (run (call_Refresh 0%nat "s" "t" 60)
       (run (call_Save (mkStore 0%nat "s" 60 1%positive)) wide_world)).
Proof.
  apply (proj1 (proj2 (proj2 sid_invariant_preserved))).
  apply (proj1 (proj2 (proj2 sid_invariant_preserved))).
  apply (proj1 sid_invariant_preserved 0).
Defined.

(** ** The typed getters *)

Lemma store_Get_run s key w :
  store_Get s key w =
  (match heap w !! st_values s ≫= (.!! key) with
   | Some v => (v, true)
   | None => (VNil, false)
   end, w).
Proof.
  unfold store_Get, bind, map_index, ret.
  by destruct (heap w !! st_values s ≫= (.!! key)).
Qed.

Lemma store_Set_stored s key value w :
  is_Some (heap w !! st_values s) →
  heap (exec (store_Set s key value) w) !! st_values s ≫= (.!! key)
  = Some value.
Proof.
  intros [m Hm]. unfold exec, store_Set, map_assign. simpl.
  rewrite lookup_alter_eq, Hm. simpl. apply lookup_insert_eq.
Qed.

Section TypedGetters.
Variable uuid_Parse : string → option UUID.
Variable uuid_FromBytes : list Byte.byte → option UUID.
(** [uuid.FromBytes] takes a slice of exactly 16 bytes as the UUID. *)
Hypothesis uuid_FromBytes_16 :
  ∀ bs, length bs = 16%nat → uuid_FromBytes bs = Some bs.

Abbreviation GetUUID := (store_GetUUID uuid_Parse uuid_FromBytes).

(** C9: the four typed getters are total, change nothing, and answer the
    zero value and [false] when the key is absent or the stored value is
    of another dynamic type (for [GetUUID]: of a type other than UUID,
    string and byte slice); on a value of their type they answer it and
    [true]; [GetUUID] answers the decoded UUID and [true] on a string that
    [uuid.Parse] accepts and on a raw value of 16 bytes, and the nil UUID
    and [false] on a string or bytes that do not decode.  So after
    [Set] of an integer [GetString] answers the empty string and [false],
    and after [Set] of a UUID's text [GetUUID] answers that UUID and
    [true]. *)
Theorem typed_getters_spec (s : store) (key : string) (w : World) :
  let stored := heap w !! st_values s ≫= (.!! key) in
  (exec (store_GetString s key) w = w ∧ exec (store_GetInt s key) w = w
   ∧ exec (store_GetBool s key) w = w ∧ exec (GetUUID s key) w = w)
  ∧ (stored = None →
     eval (store_GetString s key) w = (EmptyString, false)
     ∧ eval (store_GetInt s key) w = (0, false)
     ∧ eval (store_GetBool s key) w = (false, false)
     ∧ eval (GetUUID s key) w = (uuid_Nil, false))
  ∧ (∀ v, stored = Some v →
       ((∀ x, v ≠ VString x) →
          eval (store_GetString s key) w = (EmptyString, false))
       ∧ ((∀ x, v ≠ VInt x) → eval (store_GetInt s key) w = (0, false))
       ∧ ((∀ x, v ≠ VBool x) → eval (store_GetBool s key) w = (false, false))
       ∧ ((∀ x, v ≠ VUUID x) → (∀ x, v ≠ VString x) → (∀ x, v ≠ VBytes x) →
          eval (GetUUID s key) w = (uuid_Nil, false)))
  ∧ (∀ x, stored = Some (VString x) →
       eval (store_GetString s key) w = (x, true))
  ∧ (∀ x, stored = Some (VInt x) → eval (store_GetInt s key) w = (x, true))
  ∧ (∀ x, stored = Some (VBool x) → eval (store_GetBool s key) w = (x, true))
  ∧ (∀ u, stored = Some (VUUID u) → eval (GetUUID s key) w = (u, true))
  ∧ (∀ t, stored = Some (VString t) →
       eval (GetUUID s key) w =
       match uuid_Parse t with
       | Some id => (id, true)
       | None => (uuid_Nil, false)
       end)
  ∧ (∀ t, stored = Some (VBytes t) →
       (length t = 16%nat → eval (GetUUID s key) w = (t, true))
       ∧ (uuid_FromBytes t = None →
          eval (GetUUID s key) w = (uuid_Nil, false)))
  ∧ (is_Some (heap w !! st_values s) →
     (∀ i, eval (store_GetString s key)
             (exec (store_Set s key (VInt i)) w) = (EmptyString, false))
     ∧ (∀ t u, uuid_Parse t = Some u →
          eval (GetUUID s key) (exec (store_Set s key (VString t)) w)
          = (u, true))).
Proof.
  assert (Hrun : ∀ w',
    let stored := heap w' !! st_values s ≫= (.!! key) in
    (store_GetString s key w' =
       (match stored with
        | Some (VString x) => (x, true)
        | _ => (EmptyString, false)
        end, w'))
    ∧ (store_GetInt s key w' =
         (match stored with Some (VInt x) => (x, true) | _ => (0, false) end,
          w'))
    ∧ (store_GetBool s key w' =
         (match stored with
          | Some (VBool x) => (x, true)
          | _ => (false, false)
          end, w'))
    ∧ (GetUUID s key w' =
         (match stored with
          | Some (VUUID u) => (u, true)
          | Some (VString t) =>
              match uuid_Parse t with
              | Some id => (id, true)
              | None => (uuid_Nil, false)
              end
          | Some (VBytes t) =>
              match uuid_FromBytes t with
              | Some id => (id, true)
              | None => (uuid_Nil, false)
              end
          | _ => (uuid_Nil, false)
          end, w'))).
  { intros w'. simpl.
    unfold store_GetString, store_GetInt, store_GetBool, store_GetUUID, bind.
    rewrite !store_Get_run.
    destruct (heap w' !! st_values s ≫= (.!! key)) as [[]|]; simpl;
      repeat split; try done; by repeat case_match. }
  intros stored. unfold eval, exec.
  destruct (Hrun w) as (HS & HI & HB & HU). fold stored in HS, HI, HB, HU.
  rewrite HS, HI, HB, HU. simpl.
  split; [done|]. split; [by intros ->|]. split.
  { intros v ->. repeat split.
    - intros Hv. destruct v; try done. by destruct (Hv s0).
    - intros Hv. destruct v; try done. by destruct (Hv i).
    - intros Hv. destruct v; try done. by destruct (Hv b).
    - intros Hu Hs Hb. destruct v; try done.
      + by destruct (Hs s0).
      + by destruct (Hu u).
      + by destruct (Hb bs). }
  split; [by intros x ->|]. split; [by intros x ->|].
  split; [by intros x ->|]. split; [by intros x ->|].
  split; [by intros x ->|]. split.
  { intros t ->. split.
    - intros Hlen. by rewrite (uuid_FromBytes_16 _ Hlen).
    - by intros ->. }
  intros Hlive. split.
  - intros i.
    destruct (Hrun (exec (store_Set s key (VInt i)) w)) as (H & _).
    cbv zeta in H. rewrite (store_Set_stored _ _ _ _ Hlive) in H.
    unfold exec in H. simpl in H. by rewrite H.
  - intros t u Ht.
    destruct (Hrun (exec (store_Set s key (VString t)) w)) as (_ & _ & _ & H).
    cbv zeta in H. rewrite (store_Set_stored _ _ _ _ Hlive), Ht in H.
    unfold exec in H. simpl in H. by rewrite H.
Qed.
End TypedGetters.

Lemma raw_FromBytes_16 bs : length bs = 16%nat → raw_FromBytes bs = Some bs.
Proof. intros H. unfold raw_FromBytes. by rewrite decide_True. Qed.

Lemma typed_getters_spec_witness :
  let c := memoryStore_Create 0%nat "s" 60 (NewMemoryStore 0) in
  (canonical_Parse sample_uuid_text = Some sample_uuid
   ∧ is_Some (heap c.2 !! st_values c.1.1))
  ∧ eval (store_GetString c.1.1 "n") (exec (store_Set c.1.1 "n" (VInt 5)) c.2)
    = (EmptyString, false)
  ∧ eval (store_GetUUID canonical_Parse raw_FromBytes c.1.1 "u")
      (exec (store_Set c.1.1 "u" (VString sample_uuid_text)) c.2)
    = (sample_uuid, true).
Proof.
  intros c.
  assert (Hp : canonical_Parse sample_uuid_text = Some sample_uuid)
    by (vm_compute; reflexivity).
  assert (Hl : is_Some (heap c.2 !! st_values c.1.1))
    by (eexists; vm_compute; reflexivity).
  split; [done|]. split.
  - pose proof (typed_getters_spec canonical_Parse raw_FromBytes
                  raw_FromBytes_16 c.1.1 "n" c.2) as H.
    simpl in H. destruct H as (_ & _ & _ & _ & _ & _ & _ & _ & _ & H).
    destruct (H Hl) as [Hn _]. apply Hn.
  - pose proof (typed_getters_spec canonical_Parse raw_FromBytes
                  raw_FromBytes_16 c.1.1 "u" c.2) as H.
    simpl in H. destruct H as (_ & _ & _ & _ & _ & _ & _ & _ & _ & H).
    destruct (H Hl) as [_ Hu]. by apply Hu.
Defined.

(** ** Set and the table *)

(** The handle [Update] returns for an entry with a map holds that very
    map. *)
Lemma Update_handle_shares_map ctx sid expired w it l :
  data (mstore w) !! sid = Some it → item_values it = Some l →
  st_values (eval (memoryStore_Update ctx sid expired) w).1 = l
  ∧ heap (exec (memoryStore_Update ctx sid expired) w) = heap w.
Proof.
  intros Hit Hl. unfold eval, exec.
  rewrite (Update_present _ _ _ _ _ Hit). simpl. by rewrite Hl.
Qed.

(** A [Set] through a handle that holds the entry's map is at once a change
    of what the entry reads as. *)
Lemma Set_through_shared_map s key value w sid it m :
  data (mstore w) !! sid = Some it → item_values it = Some (st_values s) →
  heap w !! st_values s = Some m →
  entry_values (exec (store_Set s key value) w) sid = Some (<[key := value]> m).
Proof.
  intros Hit Hl Hm. unfold entry_values, exec, store_Set, map_assign. simpl.
  rewrite Hit. simpl. rewrite Hl. simpl.
  by rewrite lookup_alter_eq, Hm.
Qed.

(** A [Set] through the handle [Create] returns changes no entry. *)
Lemma Set_on_Create_handle_local ctx sid expired key value w :
  heap_closed w →
  let c := memoryStore_Create ctx sid expired w in
  ∀ k, entry_values (exec (store_Set c.1.1 key value) c.2) k = entry_values w k.
Proof.
  intros Hclosed c k. subst c.
  unfold memoryStore_Create, bind, ret. rewrite newStore_nil. simpl.
  unfold entry_values, exec, store_Set, map_assign. simpl.
  destruct (data (mstore w) !! k) as [it|] eqn:Hit; [|done]. simpl. f_equal.
  destruct (item_values it) as [l|] eqn:Hl; [|done]. simpl.
  assert (Hne : fresh (dom (heap w)) ≠ l).
  { intros <-. apply (is_fresh (dom (heap w))). by eapply Hclosed. }
  by rewrite lookup_alter_ne, lookup_insert_ne.
Qed.

(** C1 on the code: a session is saved once with no values; [Update] returns
    a handle for it; the entry reads as empty; after [Set] on that handle,
    with no [Save], the entry reads as holding the key, and the table's items
    are the very same: the handle's map is the entry's map. *)
Theorem Set_on_Update_handle_changes_entry :
  entry_values updated_world "s" = Some ∅
  ∧ entry_values (exec (store_Set updated_handle "k" (VInt 1)) updated_world) "s"
    = Some {[ "k" := VInt 1 ]}
  ∧ data (mstore (exec (store_Set updated_handle "k" (VInt 1)) updated_world))
    = data (mstore updated_world)
  ∧ (item_values <$> data (mstore updated_world) !! "s")
    = Some (Some (st_values updated_handle)).
Proof. repeat split; vm_compute; reflexivity. Qed.

(** * Further properties of the manager and the handle *)

Lemma Save_exec s w :
  exec (store_Save s) w
  = exec (memoryStore_save (st_sid s) (Some (st_values s)) (st_expired s)) w.
Proof.
  unfold exec, store_Save, bind, ret. by destruct (memoryStore_save _ _ _ w).
Qed.

Lemma Check_at c sid t w :
  fst (eval (memoryStore_Check c sid) (set_clock t w)) =
  match data (mstore w) !! sid with
  | Some it => bool_decide (t < item_expiredAt it)
  | None => false
  end.
Proof. by rewrite Check_eval. Qed.

(** ** Delete on the manager *)

(** [Delete] on the manager returns no error and takes the id out of the
    table and nothing else: the other entries, every map of values (so what
    outstanding handles read), the clock and the ticker stay; [Check] of the
    id is false from then on; deleting an id that has no entry leaves the
    world as it is, so a second [Delete] changes nothing. *)
Theorem Delete_spec (ctx : context_Context) (sid : string) (w : World) :
  let w' := exec (memoryStore_Delete ctx sid) w in
  eval (memoryStore_Delete ctx sid) w = None
  ∧ data (mstore w') = delete sid (data (mstore w))
  ∧ (∀ k, k ≠ sid → data (mstore w') !! k = data (mstore w) !! k)
  ∧ (heap w' = heap w ∧ clock w' = clock w
     ∧ ticker (mstore w') = ticker (mstore w))
  ∧ (∀ c t, fst (eval (memoryStore_Check c sid) (set_clock t w')) = false)
  ∧ (data (mstore w) !! sid = None → w' = w)
  ∧ exec (memoryStore_Delete ctx sid) w' = w'.
Proof.
  simpl. unfold eval, exec, memoryStore_Delete, memoryStore_delete, bind,
    data_Delete, ret. simpl.
  split; [done|]. split; [done|]. split.
  { intros k Hk. by rewrite lookup_delete_ne. }
  split; [done|]. split.
  { intros c t. unfold memoryStore_Check, bind, data_Load. simpl.
    by rewrite lookup_delete_eq. }
  split.
  - intros Hnone. rewrite delete_id by done. apply set_data_same.
  - unfold set_data. simpl. f_equal. f_equal.
    apply delete_id, lookup_delete_eq.
Qed.

(** ** Get, Set and Delete on the handle *)

Lemma Get_eval s key w :
  eval (store_Get s key) w =
  match heap w !! st_values s ≫= (.!! key) with
  | Some v => (v, true)
  | None => (VNil, false)
  end.
Proof. unfold eval. by rewrite store_Get_run. Qed.

(** With the handle's map made, [Get] after [Set] of a key answers the value
    set and [true]; the other keys answer as before; a second [Set] of the
    key replaces the first; and [Set] leaves the manager and every other map
    alone. *)
Theorem Set_Get_roundtrip (s : store) (key : string) (value : Value)
    (w : World) (Hlive : store_live w s) :
  let w' := exec (store_Set s key value) w in
  eval (store_Get s key) w' = (value, true)
  ∧ (∀ key', key' ≠ key → eval (store_Get s key') w' = eval (store_Get s key') w)
  ∧ (∀ value', exec (store_Set s key value') w' = exec (store_Set s key value') w)
  ∧ (mstore w' = mstore w ∧ clock w' = clock w)
  ∧ (∀ l, l ≠ st_values s → heap w' !! l = heap w !! l).
Proof.
  apply elem_of_dom in Hlive as [m Hm].
  simpl. rewrite !Get_eval.
  unfold exec, store_Set, map_assign. simpl.
  rewrite lookup_alter_eq, Hm. simpl. rewrite lookup_insert_eq.
  split; [done|]. split.
  { intros key' Hne. rewrite !Get_eval. simpl.
    rewrite lookup_alter_eq, Hm. simpl. by rewrite lookup_insert_ne. }
  split.
  { intros value'. unfold set_heap. simpl. f_equal.
    apply map_eq. intros l. destruct (decide (st_values s = l)) as [<-|Hne].
    - rewrite !lookup_alter_eq, Hm. simpl. by rewrite insert_insert_eq.
    - by rewrite !lookup_alter_ne. }
  split; [done|]. intros l Hl. by rewrite lookup_alter_ne.
Qed.

Lemma Set_Get_roundtrip_witness :
  let c := memoryStore_Create 0%nat "s" 60 (NewMemoryStore 0) in
  store_live c.2 c.1.1
  ∧ eval (store_Get c.1.1 "k") (exec (store_Set c.1.1 "k" (VBool true)) c.2)
    = (VBool true, true).
Proof.
  intros c.
  assert (Hlive : store_live c.2 c.1.1).
  { unfold store_live. rewrite elem_of_dom. eexists. vm_compute. reflexivity. }
  split; [done|].
  apply (Set_Get_roundtrip c.1.1 "k" (VBool true) c.2 Hlive).
Defined.

Lemma store_Delete_run s key w :
  store_Delete s key w =
  match heap w !! st_values s ≫= (.!! key) with
  | Some v => (v, set_heap (alter (delete key) (st_values s) (heap w)) w)
  | None => (VNil, w)
  end.
Proof.
  unfold store_Delete, bind, map_index, map_delete, ret.
  by destruct (heap w !! st_values s ≫= (.!! key)).
Qed.

(** [Delete] on the handle answers the value the key had, or nil for a key
    that is not set, and then leaves the world as it is; afterwards [Get] of
    the key answers nil and [false]; the other keys, the manager and every
    other map are as before. *)
Theorem store_Delete_spec (s : store) (key : string) (w : World) :
  let w' := exec (store_Delete s key) w in
  eval (store_Delete s key) w = (eval (store_Get s key) w).1
  ∧ ((eval (store_Get s key) w).2 = false →
     eval (store_Delete s key) w = VNil ∧ w' = w)
  ∧ eval (store_Get s key) w' = (VNil, false)
  ∧ (∀ key', key' ≠ key → eval (store_Get s key') w' = eval (store_Get s key') w)
  ∧ (mstore w' = mstore w ∧ clock w' = clock w)
  ∧ (∀ l, l ≠ st_values s → heap w' !! l = heap w !! l).
Proof.
  cbv zeta.
  rewrite (eval_run (store_Delete s key)), (exec_run (store_Delete s key)),
    store_Delete_run, !Get_eval.
  destruct (heap w !! st_values s ≫= (.!! key)) as [v|] eqn:Hst; simpl;
    [|by rewrite Hst].
  destruct (heap w !! st_values s) as [m|] eqn:Hm; [|done].
  rewrite lookup_alter_eq, Hm. simpl. rewrite lookup_delete_eq.
  split; [done|]. split; [done|]. split; [done|]. split.
  { intros key' Hne. rewrite !Get_eval. simpl.
    rewrite lookup_alter_eq, Hm. simpl. by rewrite lookup_delete_ne. }
  split; [done|]. intros l Hl. by rewrite lookup_alter_ne.
Qed.

(** ** Flush *)

Lemma Flush_run s w :
  store_Flush s w =
  let l := fresh (dom (heap w)) in
  ((mkStore (st_ctx s) (st_sid s) (st_expired s) l, None),
   exec (memoryStore_save (st_sid s) (Some l) (st_expired s))
     (set_heap (<[l := ∅]> (heap w)) w)).
Proof.
  unfold store_Flush, store_Save, bind, ret, map_make, exec. simpl.
  by destruct (memoryStore_save _ _ _ _).
Qed.

(** [Flush] returns no error and gives the handle a newly made, empty map,
    which it saves: the entry of the handle's id then reads as empty (an
    entry is made where there was none), an entry that existed keeps its
    [expiredAt], and the other entries are untouched.  The map the handle
    held before is not emptied: it still reads as it did. *)
Theorem Flush_spec (s : store) (w : World) :
  let s' := (eval (store_Flush s) w).1 in
  let w' := exec (store_Flush s) w in
  (eval (store_Flush s) w).2 = None
  ∧ (st_ctx s' = st_ctx s ∧ st_sid s' = st_sid s ∧ st_expired s' = st_expired s)
  ∧ (st_values s' ∉ dom (heap w))
  ∧ heap w' = <[st_values s' := ∅]> (heap w)
  ∧ store_values w' s' = ∅
  ∧ entry_values w' (st_sid s) = Some ∅
  ∧ (∀ it, data (mstore w) !! st_sid s = Some it →
       data (mstore w') !! st_sid s =
       Some (mkDataItem (item_sid it) (item_expiredAt it) (Some (st_values s'))))
  ∧ (∀ k, k ≠ st_sid s → data (mstore w') !! k = data (mstore w) !! k)
  ∧ store_values w' s = store_values w s.
Proof.
  cbv zeta.
  rewrite (eval_run (store_Flush s)), (exec_run (store_Flush s)), Flush_run.
  cbv zeta. rewrite save_exec. simpl.
  set (l := fresh (dom (heap w))).
  assert (Hl : heap w !! l = None) by apply fresh_loc_unused.
  split; [done|]. split; [done|]. split; [apply is_fresh|].
  assert (Hs : store_values (set_heap (<[l:=∅]> (heap w)) w) s
               = store_values w s).
  { apply (map_contents_alloc w l (Some (st_values s)) Hl). }
  unfold entry_values, store_values in *.
  destruct (data (mstore w) !! st_sid s) as [it|] eqn:Hit; simpl;
    rewrite !lookup_insert_eq; simpl; rewrite !lookup_insert_eq;
    (split; [done|]); (split; [done|]); (split; [done|]);
    (split; [by intros ? [= <-] || done|]);
    (split; [intros k Hk; by rewrite lookup_insert_ne | exact Hs]).
Qed.

(** ** Save *)

(** A second [Save] right after a [Save] changes nothing. *)
Theorem Save_idempotent (s : store) (w : World) :
  exec (store_Save s) (exec (store_Save s) w) = exec (store_Save s) w.
Proof.
  rewrite !Save_exec, !save_exec.
  destruct (data (mstore w) !! st_sid s) as [it|] eqn:Hit; simpl;
    rewrite lookup_insert_eq; unfold set_data; simpl;
    by rewrite insert_insert_eq.
Qed.

(** [Save] on an id that has an entry does not change what [Check] answers
    for that id, at any time: it renews nothing, and an entry that has
    expired stays expired however often it is saved. *)
Theorem Save_keeps_expiry (s : store) (w : World) (it : dataItem)
    (Hit : data (mstore w) !! st_sid s = Some it) :
  (item_expiredAt <$> data (mstore (exec (store_Save s) w)) !! st_sid s)
  = Some (item_expiredAt it)
  ∧ ∀ c t,
      fst (eval (memoryStore_Check c (st_sid s))
             (set_clock t (exec (store_Save s) w)))
      = fst (eval (memoryStore_Check c (st_sid s)) (set_clock t w)).
Proof.
  rewrite Save_exec, save_exec, Hit. simpl. rewrite lookup_insert_eq.
  split; [done|]. intros c t. rewrite !Check_at. simpl.
  by rewrite lookup_insert_eq, Hit.
Qed.

Lemma Save_keeps_expiry_witness :
  let s := mkStore 0%nat "s" 60 1%positive in
  let w := exec (store_Save s) wide_world in
  let late := set_clock (61 * time_Second) w in
  data (mstore late) !! st_sid s
    = Some (mkDataItem "s" (60 * time_Second) (Some 1%positive))
  ∧ fst (eval (memoryStore_Check 0%nat "s")
           (set_clock (61 * time_Second) (exec (store_Save s) late)))
    = false.
Proof.
  intros s w late.
  assert (Hit : data (mstore late) !! st_sid s
                = Some (mkDataItem "s" (60 * time_Second) (Some 1%positive)))
    by (vm_compute; reflexivity).
  split; [done|].
  pose proof (proj2 (Save_keeps_expiry s late _ Hit) 0%nat (61 * time_Second))
    as H.
  change (st_sid s) with "s" in H. rewrite H. vm_compute. reflexivity.
Defined.

(** A session made by [Create] and [Save] under an id that had no entry,
    with a ttl whose nanosecond count fits a signed 64-bit integer, is
    reported by [Check] exactly until the ttl has run out: true at every
    time before the creation time plus the ttl, false from that time on. *)
Theorem new_session_lifetime (ctx : context_Context) (sid : string)
    (expired : Z) (w : World)
    (Hnone : data (mstore w) !! sid = None)
    (Hfit : fits_int64 (expired * time_Second)) :
  let c := memoryStore_Create ctx sid expired w in
  let w' := exec (store_Save c.1.1) c.2 in
  ∀ ctx' d,
    fst (eval (memoryStore_Check ctx' sid) (set_clock (clock w + d) w'))
    = bool_decide (d < expired * time_Second).
Proof.
  intros c w' ctx' d. subst c w'. rewrite Create_run. simpl.
  rewrite Check_at, Save_exec, save_exec. simpl. rewrite Hnone. simpl.
  rewrite lookup_insert_eq. simpl. rewrite (seconds_fits _ Hfit).
  apply bool_decide_ext. lia.
Qed.

Lemma new_session_lifetime_witness :
  let w := NewMemoryStore 7 in
  let c := memoryStore_Create 0%nat "s" 60 w in
  let w' := exec (store_Save c.1.1) c.2 in
  (data (mstore w) !! "s" = None ∧ fits_int64 (60 * time_Second))
  ∧ fst (eval (memoryStore_Check 0%nat "s")
           (set_clock (clock w + 59 * time_Second) w')) = true
  ∧ fst (eval (memoryStore_Check 0%nat "s")
           (set_clock (clock w + 60 * time_Second) w')) = false.
Proof.
  intros w c w'.
  assert (Hnone : data (mstore w) !! "s" = None) by done.
  assert (Hfit : fits_int64 (60 * time_Second)) by (by vm_compute).
  split; [done|]. subst c w'.
  rewrite !(new_session_lifetime 0%nat "s" 60 w Hnone Hfit). by vm_compute.
Defined.

(** ** The sweep and Check *)

(** A sweep pass is invisible to [Check]: [Check] of any id answers after
    the pass what it answered before it (what the pass removes was already
    reported as expired).  Every entry the pass leaves expires at the current
    time or later; an entry that expires exactly at the current time is left
    in the table although [Check] already answers false for it; and a second
    pass at the same time changes nothing. *)
Theorem gc_pass_Check (w : World) :
  let w' := exec memoryStore_gc_pass w in
  (∀ c sid, fst (eval (memoryStore_Check c sid) w')
            = fst (eval (memoryStore_Check c sid) w))
  ∧ (∀ k it, data (mstore w') !! k = Some it → clock w ≤ item_expiredAt it)
  ∧ (∀ c k it, data (mstore w) !! k = Some it → item_expiredAt it = clock w →
       data (mstore w') !! k = Some it
       ∧ fst (eval (memoryStore_Check c k) w) = false)
  ∧ exec memoryStore_gc_pass w' = w'.
Proof.
  simpl. rewrite !gc_pass_exec. simpl. split; [|split; [|split]].
  - intros c sid. rewrite !Check_eval. simpl. rewrite filter_live_lookup.
    destruct (data (mstore w) !! sid) as [it|]; [|done].
    case_decide; [|done]. symmetry. apply bool_decide_eq_false_2. lia.
  - intros k it. rewrite filter_live_lookup.
    destruct (data (mstore w) !! k) as [it'|]; [|done].
    case_decide; [done|]. intros [= <-]. lia.
  - intros c k it Hit He. rewrite filter_live_lookup, Check_eval, Hit.
    split; [case_decide; [lia|done]|]. apply bool_decide_eq_false_2. lia.
  - unfold set_data. simpl. by rewrite filter_live_later.
Qed.

(** ** Refresh onto the same id *)

(** [Refresh] with the new id equal to the old one, on an id that has an
    entry, removes that entry: the table is the old table without the id, so
    [Check] of the id is false afterwards, while the returned handle, bound
    to the id, still reads the values the entry had. *)
Theorem Refresh_same_id (ctx : context_Context) (sid : string) (expired : Z)
    (w : World) (it : dataItem) (Hit : data (mstore w) !! sid = Some it) :
  let s := (eval (memoryStore_Refresh ctx sid sid expired) w).1 in
  let w' := exec (memoryStore_Refresh ctx sid sid expired) w in
  data (mstore w') = delete sid (data (mstore w))
  ∧ (∀ c t, fst (eval (memoryStore_Check c sid) (set_clock t w')) = false)
  ∧ st_sid s = sid
  ∧ Some (store_values w' s) = entry_values w sid.
Proof.
  cbv zeta.
  rewrite (eval_run (memoryStore_Refresh ctx sid sid expired)),
    (exec_run (memoryStore_Refresh ctx sid sid expired)),
    (Refresh_present _ _ _ _ _ _ Hit).
  simpl. set (w1 := set_data _ w).
  pose proof (newStore_frame ctx sid expired (item_values it) w1)
    as (Hm & _ & _ & Hc).
  pose proof (newStore_values ctx sid expired (item_values it) w1) as Hv.
  assert (Hd : data (mstore w1) = delete sid (data (mstore w))).
  { simpl. apply delete_insert_eq. }
  rewrite Hm, Hd. split; [done|]. split.
  { intros c t. rewrite Check_at, Hm, Hd. by rewrite lookup_delete_eq. }
  split; [by destruct (item_values it)|].
  unfold entry_values. rewrite Hit. simpl. by rewrite Hv.
Qed.

Lemma Refresh_same_id_witness :
  let w := exec (store_Save (mkStore 0%nat "s" 60 1%positive))
             (set_heap {[ 1%positive := {[ "x" := VString "1" ]} ]}
                (NewMemoryStore 5)) in
  data (mstore w) !! "s"
    = Some (mkDataItem "s" (5 + 60 * time_Second) (Some 1%positive))
  ∧ data (mstore (exec (memoryStore_Refresh 0%nat "s" "s" 60) w)) !! "s" = None.
Proof.
  intros w.
  assert (Hit : data (mstore w) !! "s"
                = Some (mkDataItem "s" (5 + 60 * time_Second) (Some 1%positive)))
    by (vm_compute; reflexivity).
  split; [done|].
  rewrite (proj1 (Refresh_same_id 0%nat "s" 60 w _ Hit)).
  apply lookup_delete_eq.
Defined.

(** ** Update of an expired entry *)

(** [Update] does not look at the old [expiredAt]: on an id that has an
    entry, expired or not, and with a ttl whose nanosecond count fits a
    signed 64-bit integer, [Check] of the id afterwards is true exactly until
    the time of the call plus the ttl. *)
Theorem Update_renews (ctx : context_Context) (sid : string) (expired : Z)
    (w : World) (it : dataItem)
    (Hit : data (mstore w) !! sid = Some it)
    (Hfit : fits_int64 (expired * time_Second)) :
  let w' := exec (memoryStore_Update ctx sid expired) w in
  ∀ c d, fst (eval (memoryStore_Check c sid) (set_clock (clock w + d) w'))
         = bool_decide (d < expired * time_Second).
Proof.
  intros w' c d. subst w'.
  rewrite (exec_run (memoryStore_Update ctx sid expired)),
    (Update_present _ _ _ _ _ Hit).
  simpl. set (w1 := set_data _ w).
  pose proof (newStore_frame ctx sid expired (item_values it) w1) as (Hm & _).
  rewrite Check_at, Hm. simpl. rewrite lookup_insert_eq. simpl.
  rewrite (seconds_fits _ Hfit). apply bool_decide_ext. lia.
Qed.

Lemma Update_renews_witness :
  let w := set_clock (61 * time_Second)
             (exec (store_Save (mkStore 0%nat "s" 60 1%positive)) wide_world) in
  (data (mstore w) !! "s"
     = Some (mkDataItem "s" (60 * time_Second) (Some 1%positive))
   ∧ fits_int64 (30 * time_Second))
  ∧ fst (eval (memoryStore_Check 0%nat "s") w) = false
  ∧ fst (eval (memoryStore_Check 0%nat "s")
           (set_clock (clock w + 0)
              (exec (memoryStore_Update 0%nat "s" 30) w))) = true.
Proof.
  intros w.
  assert (Hit : data (mstore w) !! "s"
                = Some (mkDataItem "s" (60 * time_Second) (Some 1%positive)))
    by (vm_compute; reflexivity).
  assert (Hfit : fits_int64 (30 * time_Second)) by (by vm_compute).
  split; [done|]. split; [by vm_compute|].
  rewrite (Update_renews 0%nat "s" 30 w _ Hit Hfit). by vm_compute.
Defined.

(** ** After Close *)

Lemma background_step_stopped w w' :
  background_step w w' →
  tk_active (ticker (mstore w)) = false →
  tk_pending (ticker (mstore w)) = false →
  (tk_active (ticker (mstore w')) = false
   ∧ tk_pending (ticker (mstore w')) = false)
  ∧ data (mstore w') = data (mstore w) ∧ heap w' = heap w.
Proof.
  intros Hstep Hact Hpend. destruct Hstep as [w d Hd|w|w w' Hgc].
  - done.
  - unfold Ticker_fire. by rewrite Hact.
  - unfold memoryStore_gc in Hgc. rewrite Hpend in Hgc.
    destruct (gc_routine w); [|done].
    destruct (tk_closed (ticker (mstore w))); [|done].
    by injection Hgc as <-.
Qed.

(** [Close] returns no error and changes nothing but the ticker, and a
    second [Close] changes nothing.  When no tick is waiting in the channel
    at the time of [Close], no sweep runs any more: whatever time passes, the
    table and the maps stay as they are, so expired entries are no longer
    removed. *)
Theorem Close_stops_sweeps (w : World)
    (Hempty : tk_pending (ticker (mstore w)) = false) :
  let w0 := exec memoryStore_Close w in
  eval memoryStore_Close w = None
  ∧ (data (mstore w0) = data (mstore w) ∧ heap w0 = heap w
     ∧ clock w0 = clock w ∧ gc_routine w0 = gc_routine w)
  ∧ exec memoryStore_Close w0 = w0
  ∧ (∀ w', background_steps w0 w' →
       data (mstore w') = data (mstore w) ∧ heap w' = heap w).
Proof.
  simpl. split; [done|]. split; [done|]. split; [done|].
  intros w' Hs.
  enough (H : (tk_active (ticker (mstore w')) = false
               ∧ tk_pending (ticker (mstore w')) = false)
              ∧ data (mstore w') = data (mstore w) ∧ heap w' = heap w)
    by apply H.
  remember (exec memoryStore_Close w) as w0 eqn:Hw0.
  induction Hs as [w1|w1 w2 w3 _ IH Hstep].
  - subst w1. by repeat split.
  - destruct (IH Hw0) as ([Ha Hp] & Hd & Hh).
    destruct (background_step_stopped _ _ Hstep Ha Hp) as (? & Hd' & Hh').
    split; [done|]. split; congruence.
Qed.

Lemma Close_stops_sweeps_witness :
  let w := exec (store_Save (mkStore 0%nat "s" 60 1%positive)) wide_world in
  let w0 := exec memoryStore_Close w in
  let w1 := set_clock (clock w0 + 3600 * time_Second) w0 in
  let w2 := set_ticker (Ticker_fire (ticker (mstore w1))) w1 in
  tk_pending (ticker (mstore w)) = false
  ∧ memoryStore_gc w2 = None
  ∧ is_Some (data (mstore w2) !! "s").
Proof.
  intros w w0 w1 w2.
  assert (Hempty : tk_pending (ticker (mstore w)) = false) by done.
  split; [done|]. split; [done|].
  assert (Hs : background_steps w0 w2).
  { eapply background_more; [eapply background_more; [apply background_refl|]|].
    - apply (background_time w0 (3600 * time_Second)). by vm_compute.
    - apply (background_tick w1). }
  destruct (Close_stops_sweeps w Hempty) as (_ & _ & _ & H).
  rewrite (proj1 (H w2 Hs)). eexists. vm_compute. reflexivity.
Defined.

(** ** Handles and the maps they hold *)

(** Once a handle whose map is made has been saved, the table entry holds
    the handle's map itself: a later [Set] on the handle shows in what the
    entry reads as, with no further [Save]. *)
Theorem Save_then_Set_visible (s : store) (key : string) (value : Value)
    (w : World) (Hlive : store_live w s) :
  entry_values (exec (store_Set s key value) (exec (store_Save s) w)) (st_sid s)
  = Some (<[key := value]> (store_values w s)).
Proof.
  apply elem_of_dom in Hlive as [m Hm].
  rewrite Save_exec, save_exec.
  unfold entry_values, store_values, exec, store_Set, map_assign.
  destruct (data (mstore w) !! st_sid s) as [it|]; simpl;
    rewrite lookup_insert_eq; simpl; by rewrite lookup_alter_eq, Hm.
Qed.

Lemma Save_then_Set_visible_witness :
  let c := memoryStore_Create 0%nat "s" 60 (NewMemoryStore 0) in
  store_live c.2 c.1.1
  ∧ entry_values (exec (store_Set c.1.1 "k" (VInt 1))
                    (exec (store_Save c.1.1) c.2)) "s"
    = Some {[ "k" := VInt 1 ]}.
Proof.
  intros c.
  assert (Hlive : store_live c.2 c.1.1).
  { unfold store_live. rewrite elem_of_dom. eexists. vm_compute. reflexivity. }
  split; [done|].
  pose proof (Save_then_Set_visible c.1.1 "k" (VInt 1) c.2 Hlive) as H.
  change (st_sid c.1.1) with "s" in H. rewrite H. vm_compute. reflexivity.
Defined.

(** The handles of two [Create] calls hold different maps, whatever the
    ids: a [Set] on the first is read back through the first and is not seen
    through the second, which stays empty. *)
Theorem Create_handles_independent
    (ctx1 ctx2 : context_Context) (sid1 sid2 : string) (expired1 expired2 : Z)
    (key : string) (value : Value) (w : World) :
  let c1 := memoryStore_Create ctx1 sid1 expired1 w in
  let c2 := memoryStore_Create ctx2 sid2 expired2 c1.2 in
  let w' := exec (store_Set c1.1.1 key value) c2.2 in
  st_values c1.1.1 ≠ st_values c2.1.1
  ∧ eval (store_Get c1.1.1 key) w' = (value, true)
  ∧ store_values w' c2.1.1 = ∅
  ∧ eval (store_Get c2.1.1 key) w' = (VNil, false).
Proof.
  cbv zeta. rewrite !Create_run. simpl.
  set (l1 := fresh (dom (heap w))).
  set (l2 := fresh (dom (<[l1:=∅]> (heap w)))).
  assert (Hne : l1 ≠ l2).
  { intros Heq. apply (is_fresh (dom (<[l1:=∅]> (heap w)))). fold l2.
    rewrite <- Heq. apply elem_of_dom. rewrite lookup_insert_eq. eauto. }
  split; [done|]. rewrite !Get_eval.
  unfold store_values, exec, store_Set, map_assign. simpl.
  rewrite lookup_alter_eq, (lookup_alter_ne _ _ l1 l2) by done.
  rewrite (lookup_insert_ne _ l2 l1) by done.
  rewrite !lookup_insert_eq. simpl. rewrite lookup_insert_eq.
  by repeat split.
Qed.

(** What a handle saved is what the handle of a later [Update] or [Refresh]
    of that id reads, key by key. *)
Theorem saved_values_survive (s : store) (ctx : context_Context)
    (sid' : string) (expired : Z) (w : World) :
  let w1 := exec (store_Save s) w in
  let u := memoryStore_Update ctx (st_sid s) expired w1 in
  let r := memoryStore_Refresh ctx (st_sid s) sid' expired w1 in
  (store_values u.2 u.1.1 = store_values w s
   ∧ ∀ key, eval (store_Get u.1.1 key) u.2 = eval (store_Get s key) w)
  ∧ (store_values r.2 r.1.1 = store_values w s
     ∧ ∀ key, eval (store_Get r.1.1 key) r.2 = eval (store_Get s key) w).
Proof.
  cbv zeta. rewrite Save_exec, save_exec.
  set (w1 := match data (mstore w) !! st_sid s with
             | Some it => _ | None => _ end).
  assert (Hw1 : ∃ it, data (mstore w1) !! st_sid s = Some it
                      ∧ item_values it = Some (st_values s)
                      ∧ heap w1 = heap w).
  { subst w1. destruct (data (mstore w) !! st_sid s) as [it|]; simpl;
      rewrite lookup_insert_eq; eauto. }
  destruct Hw1 as (it & Hit & Hv & Hh).
  rewrite (Update_present _ _ _ _ _ Hit), (Refresh_present _ _ _ _ _ _ Hit).
  simpl. rewrite Hv, !newStore_map. simpl.
  unfold store_values. simpl. rewrite Hh.
  repeat split; intros key; rewrite !Get_eval; simpl; by rewrite Hh.
Qed.

(** [Delete] on the manager does not end a handle: with a ttl whose
    nanosecond count fits a signed 64-bit integer, [Save] on a handle of the
    deleted id puts the session back, with the handle's values and a full
    ttl from the time of the [Save]. *)
Theorem Save_after_Delete (s : store) (ctx : context_Context) (w : World)
    (Hfit : fits_int64 (st_expired s * time_Second)) :
  let w' := exec (store_Save s) (exec (memoryStore_Delete ctx (st_sid s)) w) in
  data (mstore w') !! st_sid s
    = Some (mkDataItem (st_sid s) (clock w + st_expired s * time_Second)
              (Some (st_values s)))
  ∧ entry_values w' (st_sid s) = Some (store_values w s)
  ∧ (∀ k, k ≠ st_sid s → data (mstore w') !! k = data (mstore w) !! k).
Proof.
  cbv zeta. rewrite Save_exec, save_exec.
  unfold entry_values, store_values, exec, memoryStore_Delete,
    memoryStore_delete, bind, data_Delete, ret. simpl.
  rewrite lookup_delete_eq. simpl. rewrite lookup_insert_eq.
  rewrite (seconds_fits _ Hfit). split; [done|]. split; [done|].
  intros k Hk. by rewrite lookup_insert_ne, lookup_delete_ne.
Qed.

Lemma Save_after_Delete_witness :
  let s := mkStore 0%nat "s" 60 1%positive in
  let w := set_clock 100 (exec (store_Save s) wide_world) in
  fits_int64 (st_expired s * time_Second)
  ∧ (item_expiredAt <$>
       data (mstore (exec (store_Save s)
                       (exec (memoryStore_Delete 0%nat "s") w))) !! "s")
    = Some (100 + 60 * time_Second).
Proof.
  intros s w.
  assert (Hfit : fits_int64 (st_expired s * time_Second)) by (by vm_compute).
  split; [done|].
  pose proof (proj1 (Save_after_Delete s 0%nat w Hfit)) as H.
  change (st_sid s) with "s" in H. by rewrite H.
Defined.

(** ** No entry holds a map that was never made *)

Lemma heap_closed_from w w' :
  heap_closed w →
  dom (heap w) ⊆ dom (heap w') →
  (∀ k it l, data (mstore w') !! k = Some it → item_values it = Some l →
     l ∈ dom (heap w')
     ∨ ∃ k' it', data (mstore w) !! k' = Some it' ∧ item_values it' = Some l) →
  heap_closed w'.
Proof.
  intros Hc Hdom Hnew k it l Hit Hl.
  destruct (Hnew k it l Hit Hl) as [?|(k' & it' & Hit' & Hl')]; [done|].
  apply Hdom. by eapply Hc.
Qed.

Lemma heap_closed_same_data w w' :
  heap_closed w → dom (heap w) ⊆ dom (heap w') →
  data (mstore w') = data (mstore w) → heap_closed w'.
Proof.
  intros Hc Hdom Hd. apply (heap_closed_from w); [done..|].
  intros k it l Hit Hl. rewrite Hd in Hit. eauto.
Qed.

Lemma newStore_live ctx sid expired values w :
  (∀ l, values = Some l → l ∈ dom (heap w)) →
  let r := newStore ctx sid expired values w in
  store_live r.2 r.1 ∧ dom (heap w) ⊆ dom (heap r.2)
  ∧ data (mstore r.2) = data (mstore w).
Proof.
  intros Hv. destruct values as [l|].
  - rewrite newStore_map. unfold store_live. simpl. split; [by apply Hv|done].
  - rewrite newStore_nil. unfold store_live. simpl.
    rewrite dom_insert_L. set_solver.
Qed.

Lemma save_heap_closed sid l expired w :
  heap_closed w → l ∈ dom (heap w) →
  heap_closed (exec (memoryStore_save sid (Some l) expired) w).
Proof.
  intros Hc Hl. rewrite save_exec.
  apply (heap_closed_from w); [done| |].
  - by destruct (data (mstore w) !! sid).
  - intros k it l' Hit Hl'.
    destruct (data (mstore w) !! sid) as [it0|] eqn:Hit0; simpl in Hit;
      (destruct (decide (sid = k)) as [->|Hne];
       [rewrite lookup_insert_eq in Hit; injection Hit as <-;
        simpl in Hl'; injection Hl' as <-; by left
       |rewrite lookup_insert_ne in Hit by done; right; eauto]).
Qed.

(** No table entry ever holds a map that has not been made, and no map is
    ever dropped: a new manager has the property, and every call keeps it
    and keeps every map, given, for [Save], that the handle's map has been
    made; the sweep keeps it too.  The handles [Create], [Update], [Refresh]
    and [Flush] return hold a map that has been made, so they can be
    saved. *)
Theorem heap_closed_preserved :
  (∀ t0, heap_closed (NewMemoryStore t0))
  ∧ (∀ w c, heap_closed w → (∀ s, c = call_Save s → store_live w s) →
       heap_closed (run c w) ∧ dom (heap w) ⊆ dom (heap (run c w)))
  ∧ (∀ w, heap_closed w → heap_closed (exec memoryStore_gc_pass w))
  ∧ (∀ w ctx sid expired, heap_closed w →
       let c := memoryStore_Create ctx sid expired w in
       let u := memoryStore_Update ctx sid expired w in
       store_live c.2 c.1.1 ∧ store_live u.2 u.1.1)
  ∧ (∀ w ctx oldsid sid expired, heap_closed w →
       let r := memoryStore_Refresh ctx oldsid sid expired w in
       store_live r.2 r.1.1)
  ∧ (∀ w s, let f := store_Flush s w in store_live f.2 f.1.1).
Proof.
  split; [intros t0 k it l Hit; simpl in Hit; by rewrite lookup_empty in Hit|].
  split; [|split; [|split; [|split]]].
  - intros w c Hc Hsave. destruct c; cbn [run].
    + by rewrite Check_exec.
    + rewrite (exec_run (memoryStore_Create ctx sid expired)), Create_run.
      simpl. assert (Hd : dom (heap w) ⊆ dom (<[fresh (dom (heap w)):=∅]> (heap w)))
        by (rewrite dom_insert_L; set_solver).
      split; [|done]. by apply (heap_closed_same_data w).
    + rewrite (exec_run (memoryStore_Update ctx sid expired)).
      destruct (data (mstore w) !! sid) as [it|] eqn:Hit.
      * rewrite (Update_present _ _ _ _ _ Hit). simpl.
        set (w1 := set_data _ w).
        assert (Hc1 : heap_closed w1).
        { apply (heap_closed_from w); [done..|]. intros k it' l Hit' Hl. right.
          simpl in Hit'. destruct (decide (sid = k)) as [->|Hne].
          - rewrite lookup_insert_eq in Hit'. injection Hit' as <-. eauto.
          - rewrite lookup_insert_ne in Hit' by done. eauto. }
        destruct (newStore_live ctx sid expired (item_values it) w1)
          as (_ & Hdom & Hd).
        { intros l Hl. apply (Hc1 sid (with_expiredAt
            (clock w + seconds expired) it) l); [|done].
          simpl. by rewrite lookup_insert_eq. }
        split; [|done]. by apply (heap_closed_same_data w1).
      * rewrite (Update_absent _ _ _ _ Hit), Create_run. simpl.
        assert (Hd : dom (heap w) ⊆ dom (<[fresh (dom (heap w)):=∅]> (heap w)))
          by (rewrite dom_insert_L; set_solver).
        split; [|done]. by apply (heap_closed_same_data w).
    + split; [|done]. apply (heap_closed_from w); [done..|].
      intros k it l Hit Hl. right.
      unfold exec, memoryStore_Delete, memoryStore_delete, bind, data_Delete,
        ret in Hit. simpl in Hit.
      apply lookup_delete_Some in Hit as [_ Hit]. eauto.
    + rewrite (exec_run (memoryStore_Refresh ctx oldsid sid expired)).
      destruct (data (mstore w) !! oldsid) as [it|] eqn:Hit.
      * rewrite (Refresh_present _ _ _ _ _ _ Hit). simpl.
        set (w1 := set_data _ w).
        assert (Hc1 : heap_closed w1).
        { apply (heap_closed_from w); [done..|]. intros k it' l Hit' Hl. right.
          simpl in Hit'. apply lookup_delete_Some in Hit' as [_ Hit'].
          destruct (decide (sid = k)) as [->|Hne].
          - rewrite lookup_insert_eq in Hit'. injection Hit' as <-. eauto.
          - rewrite lookup_insert_ne in Hit' by done. eauto. }
        destruct (newStore_live ctx sid expired (item_values it) w1)
          as (_ & Hdom & Hd).
        { intros l Hl. by apply (Hc oldsid it l). }
        split; [|done]. by apply (heap_closed_same_data w1).
      * rewrite (Refresh_absent _ _ _ _ _ Hit), Create_run. simpl.
        assert (Hd : dom (heap w) ⊆ dom (<[fresh (dom (heap w)):=∅]> (heap w)))
          by (rewrite dom_insert_L; set_solver).
        split; [|done]. by apply (heap_closed_same_data w).
    + done.
    + assert (Hd : dom (heap (exec (store_Set s key value) w)) = dom (heap w)).
      { unfold exec, store_Set, map_assign. simpl. apply dom_alter_L. }
      rewrite Hd. split; [|done].
      apply (heap_closed_same_data w); [done|by rewrite Hd|done].
    + by rewrite (exec_run (store_Get s key)), store_Get_run.
    + rewrite (exec_run (store_Delete s key)), store_Delete_run.
      destruct (heap w !! st_values s ≫= (.!! key)); [|done]. simpl.
      rewrite dom_alter_L. split; [|done].
      apply (heap_closed_same_data w); [done| |done]. simpl.
      by rewrite dom_alter_L.
    + rewrite Save_exec. split.
      * apply save_heap_closed; [done|]. by apply Hsave.
      * rewrite save_exec. by destruct (data (mstore w) !! st_sid s).
    + rewrite (exec_run (store_Flush s)), Flush_run. cbv zeta.
      set (l := fresh (dom (heap w))).
      set (w1 := set_heap (<[l:=∅]> (heap w)) w).
      assert (Hd : dom (heap w) ⊆ dom (heap w1)).
      { simpl. rewrite dom_insert_L. set_solver. }
      assert (Hc1 : heap_closed w1) by by apply (heap_closed_same_data w).
      split.
      * apply save_heap_closed; [done|]. simpl. rewrite dom_insert_L.
        set_solver.
      * rewrite save_exec. by destruct (data (mstore w1) !! st_sid s).
  - intros w Hc. rewrite gc_pass_exec.
    apply (heap_closed_from w); [done..|]. intros k it l Hit Hl. right.
    simpl in Hit. apply map_lookup_filter_Some_1_1 in Hit. eauto.
  - intros w ctx sid expired Hc. cbv zeta. split.
    + rewrite Create_run. unfold store_live. simpl.
      rewrite dom_insert_L. set_solver.
    + destruct (data (mstore w) !! sid) as [it|] eqn:Hit.
      * rewrite (Update_present _ _ _ _ _ Hit). simpl.
        refine (proj1 (newStore_live ctx sid expired (item_values it) _ _)).
        intros l Hl. simpl. by apply (Hc sid it l).
      * rewrite (Update_absent _ _ _ _ Hit), Create_run. unfold store_live.
        simpl. rewrite dom_insert_L. set_solver.
  - intros w ctx oldsid sid expired Hc. cbv zeta.
    destruct (data (mstore w) !! oldsid) as [it|] eqn:Hit.
    + rewrite (Refresh_present _ _ _ _ _ _ Hit). simpl.
      refine (proj1 (newStore_live ctx sid expired (item_values it) _ _)).
      intros l Hl. simpl. by apply (Hc oldsid it l).
    + rewrite (Refresh_absent _ _ _ _ _ Hit), Create_run. unfold store_live.
      simpl. rewrite dom_insert_L. set_solver.
  - intros w s. cbv zeta. rewrite Flush_run. cbv zeta. unfold store_live.
    simpl. rewrite save_exec.
    destruct (data (mstore _) !! st_sid s); simpl; rewrite dom_insert_L;
      set_solver.
Qed.

Lemma heap_closed_preserved_witness :
  let c := memoryStore_Create 0%nat "s" 60 (NewMemoryStore 0) in
  (heap_closed c.2 ∧ store_live c.2 c.1.1)
  ∧ heap_closed (run (call_Save c.1.1) c.2).
Proof.
  intros c.
  destruct heap_closed_preserved as (Hinit & Hrun & _ & Hnew & _).
  assert (Hc : heap_closed c.2).
  { apply (proj1 (Hrun (NewMemoryStore 0) (call_Create 0%nat "s" 60)
                    (Hinit 0) ltac:(done))). }
  assert (Hl : store_live c.2 c.1.1)
    by apply (proj1 (Hnew (NewMemoryStore 0) 0%nat "s" 60 (Hinit 0))).
  split; [done|].
  apply (Hrun c.2 (call_Save c.1.1) Hc). by intros s [= <-].
Defined.
